(** * Transfer and verification engine of Slate-DIT (workers.py, job_manager.py)

    Shallow embedding of [TransferWorker], [MHLVerifyWorker] and the queue
    logic of [JobManager].  Python dictionaries used as records become Rocq
    records; status strings become enumerations (their Python spelling is
    given next to each constructor).  The file system is a finite map from
    absolute paths to entries; file contents are lists of bytes (Z).

    Effects are modelled by a small state monad with Python's exception
    semantics: side effects made before an exception is raised persist, and a
    [return] inside a [try] block passes through the [except] handler. *)

From Stdlib Require Import ZArith List Bool Lia.
From stdpp Require Import base gmap strings list.
From Stdlib Require Import Ascii Sorting.Sorted Sorting.Permutation.
From Stdlib Require QArith.
From Stdlib Require Import Floats.SpecFloat.
Import ListNotations.
Open Scope Z_scope.

(* ------------------------------------------------------------------ *)
(** ** Data model *)

(** A directory entry.  [Unstatable] is a listed entry whose [os.stat]
    fails with an [OSError] other than [FileNotFoundError] (for instance a
    device that went away); [os.path.exists] reports [False] for it. *)
Inductive fentry :=
| Reg (data : list Z)
| Unstatable.

(** Python exceptions raised by the modelled code. *)
Inductive exn :=
| FileNotFoundError (p : string)
| OSError (p : string)
| InterruptedError              (* "Copy cancelled by user" *)
| KeyError (k : string).

(** verification_mode: "full" | "size" | "none". *)
Inductive vmode := VFull | VSize | VNone.

(** dest_info['status'] *)
Inductive dest_status :=
| DUnverified           (* 'Unverified' *)
| DMissing              (* "Missing" *)
| DSizeMismatch         (* "Size Mismatch" *)
| DVerifiedSizeOnly     (* 'Verified (Size Only)' *)
| DVerifyFailed.        (* "Verification FAILED" *)

Record dest_info := mkDest {
  d_path : string;
  d_verified : bool;
  d_status : option dest_status   (* the key is absent for a full-mode pass *)
}.

(** file_info['status'] *)
Inductive file_status :=
| FFailed                (* 'Failed' *)
| FVerified              (* 'Verified' *)
| FCopiedUnverified      (* 'Copied (Unverified)' *)
| FError (e : exn).      (* f'Error: {e}' *)

Record file_info := mkFile {
  fi_source : string;
  fi_dests : list dest_info;
  fi_status : file_status;
  fi_checksum : string;
  fi_size : option Z       (* the 'size' key, absent until it is set *)
}.

(** report_data['status'] of a copy job *)
Inductive job_status :=
| JCompleted             (* 'Completed' *)
| JCompletedWithErrors   (* 'Completed with errors' *)
| JCancelled             (* 'Cancelled' *)
| JFailed.               (* 'Failed' *)

(** Entries of report_data['errors']; the first argument is the basename of
    the source file. *)
Inductive err :=
| EMissing (name : string)                 (* f"{name}: Missing" *)
| ESizeMismatch (name : string)            (* f"{name}: Size Mismatch" *)
| EVerifyFailed (name : string)            (* f"{name}: Verification failed" *)
| EProcessing (name : string) (e : exn)    (* f"Error processing {name}: {e}" *)
| ECritical (e : exn).                     (* f"Critical error: {e}" *)

Record report := mkReport {
  r_files : list file_info;
  r_status : job_status;
  r_total_size : Z;
  r_errors : list err;
  r_ejectable : list string   (* 'ejectable_sources_on_success' *)
}.

Definition empty_report : report := mkReport [] JCompleted 0 [] [].

(** The fields of the job dictionary read by [TransferWorker]. *)
Record job := mkJob {
  job_id : string;
  sources : list string;
  checksum_method : string;
  verification_mode : vmode;
  skip_existing : bool;
  resume_partial : bool;
  eject_on_completion : bool;
  resolved_dests : list (string * list string)
}.

(** Mode in which a file is opened. *)
Inductive open_mode := ModeRB | ModeWB | ModeAB.

(** Observable I/O: every successful [open] call. *)
Inductive io_event := EOpen (p : string) (m : open_mode).

(** State of one worker thread together with the world it acts on.
    The cancellation flag is set asynchronously by [cancel()]; it is
    observed at the code's check points.  [st_obs] counts the
    observations made so far and the flag reads [True] from observation
    number [st_cancel_at] on (it is never cleared).  Pausing is not
    requested in this model: every [while self.is_paused] loop exits at
    once. *)
Record state := mkState {
  st_fs : gmap string fentry;
  st_mounts : list string;
  st_obs : nat;
  st_cancel_at : option nat;
  st_log : list io_event;
  st_progress : list Z;        (* bytes_processed of each progress emit *)
  st_report : report;          (* report_data *)
  st_file : file_info          (* file_info of the file in flight *)
}.

(* ------------------------------------------------------------------ *)
(** ** The worker monad *)

Inductive outcome (A : Type) :=
| Ok (a : A)
| Exc (e : exn)
| Ret.                          (* the method executed [return] *)
Arguments Ok {A} a.
Arguments Exc {A} e.
Arguments Ret {A}.

Definition M (A : Type) := state -> state * outcome A.

Definition ret {A} (a : A) : M A := fun s => (s, Ok a).
Definition bind {A B} (m : M A) (f : A -> M B) : M B :=
  fun s => match m s with
           | (s', Ok a) => f a s'
           | (s', Exc e) => (s', Exc e)
           | (s', Ret) => (s', Ret)
           end.
Definition raise {A} (e : exn) : M A := fun s => (s, Exc e).
Definition early_return {A} : M A := fun s => (s, Ret).
(** [try: m except Exception as e: h e] *)
Definition try_except {A} (m : M A) (h : exn -> M A) : M A :=
  fun s => match m s with
           | (s', Exc e) => h e s'
           | r => r
           end.

Notation "x <- m ;; k" := (bind m (fun x => k))
  (at level 100, m at next level, right associativity).
Notation "m ;;; k" := (bind m (fun _ => k))
  (at level 100, right associativity).

Definition gets {A} (f : state -> A) : M A := fun s => (s, Ok (f s)).
Definition modify (f : state -> state) : M unit := fun s => (f s, Ok tt).

Lemma bind_gets {A B} (g : state -> A) (f : A -> M B) s : bind (gets g) f s = f (g s) s.
Proof. reflexivity. Qed.

Definition set_fs (fs : gmap string fentry) (s : state) : state :=
  mkState fs (st_mounts s) (st_obs s) (st_cancel_at s) (st_log s)
          (st_progress s) (st_report s) (st_file s).
Definition set_obs (n : nat) (s : state) : state :=
  mkState (st_fs s) (st_mounts s) n (st_cancel_at s) (st_log s)
          (st_progress s) (st_report s) (st_file s).
Definition set_log (l : list io_event) (s : state) : state :=
  mkState (st_fs s) (st_mounts s) (st_obs s) (st_cancel_at s) l
          (st_progress s) (st_report s) (st_file s).
Definition set_progress (l : list Z) (s : state) : state :=
  mkState (st_fs s) (st_mounts s) (st_obs s) (st_cancel_at s) (st_log s)
          l (st_report s) (st_file s).
Definition set_report (r : report) (s : state) : state :=
  mkState (st_fs s) (st_mounts s) (st_obs s) (st_cancel_at s) (st_log s)
          (st_progress s) r (st_file s).
Definition set_file (f : file_info) (s : state) : state :=
  mkState (st_fs s) (st_mounts s) (st_obs s) (st_cancel_at s) (st_log s)
          (st_progress s) (st_report s) f.

Definition r_set_files (l : list file_info) (r : report) : report :=
  mkReport l (r_status r) (r_total_size r) (r_errors r) (r_ejectable r).
Definition r_set_status (x : job_status) (r : report) : report :=
  mkReport (r_files r) x (r_total_size r) (r_errors r) (r_ejectable r).
Definition r_set_total (n : Z) (r : report) : report :=
  mkReport (r_files r) (r_status r) n (r_errors r) (r_ejectable r).
Definition r_set_errors (l : list err) (r : report) : report :=
  mkReport (r_files r) (r_status r) (r_total_size r) l (r_ejectable r).
Definition r_set_ejectable (l : list string) (r : report) : report :=
  mkReport (r_files r) (r_status r) (r_total_size r) (r_errors r) l.

Definition fi_set_dests (l : list dest_info) (f : file_info) : file_info :=
  mkFile (fi_source f) l (fi_status f) (fi_checksum f) (fi_size f).
Definition fi_set_status (x : file_status) (f : file_info) : file_info :=
  mkFile (fi_source f) (fi_dests f) x (fi_checksum f) (fi_size f).
Definition fi_set_checksum (h : string) (f : file_info) : file_info :=
  mkFile (fi_source f) (fi_dests f) (fi_status f) h (fi_size f).
Definition fi_set_size (n : Z) (f : file_info) : file_info :=
  mkFile (fi_source f) (fi_dests f) (fi_status f) (fi_checksum f) (Some n).

Definition upd_report (f : report -> report) : M unit :=
  modify (fun s => set_report (f (st_report s)) s).
Definition upd_file (f : file_info -> file_info) : M unit :=
  modify (fun s => set_file (f (st_file s)) s).

(** report_data['errors'].append(e) *)
Definition add_error (e : err) : M unit :=
  upd_report (fun r => r_set_errors (r_errors r ++ [e]) r).
(** file_info['destinations'].append(d) *)
Definition add_dest (d : dest_info) : M unit :=
  upd_file (fun f => fi_set_dests (fi_dests f ++ [d]) f).
(** report_data['files'].append(file_info) *)
Definition append_file : M unit :=
  modify (fun s => set_report (r_set_files (r_files (st_report s) ++ [st_file s])
                                            (st_report s)) s).
(** self.progress.emit(job_id, bytes_processed, ...): the byte count *)
Definition emit_progress (n : Z) : M unit :=
  modify (fun s => set_progress (st_progress s ++ [n]) s).

(** One read of [self.is_cancelled]. *)
Definition observe_cancel : M bool :=
  fun s => let b := match st_cancel_at s with
                    | Some k => Nat.leb k (st_obs s)
                    | None => false
                    end in
           (set_obs (S (st_obs s)) s, Ok b).

(* ------------------------------------------------------------------ *)
(** ** os and file primitives *)

Definition os_path_exists (p : string) : M bool :=
  gets (fun s => match st_fs s !! p with Some (Reg _) => true | _ => false end).

Definition os_path_getsize (p : string) : M Z :=
  fun s => match st_fs s !! p with
           | Some (Reg d) => (s, Ok (Z.of_nat (length d)))
           | Some Unstatable => (s, Exc (OSError p))
           | None => (s, Exc (FileNotFoundError p))
           end.

(** [os.path.ismount(p)] *)
Definition os_path_ismount (p : string) : M bool :=
  gets (fun s => existsb (String.eqb p) (st_mounts s)).

(** [open(p, 'rb')]: the returned list is what the handle will read. *)
Definition open_read (p : string) : M (list Z) :=
  fun s => match st_fs s !! p with
           | Some (Reg d) => (set_log (st_log s ++ [EOpen p ModeRB]) s, Ok d)
           | Some Unstatable => (s, Exc (OSError p))
           | None => (s, Exc (FileNotFoundError p))
           end.

(** [open(p, 'wb')] truncates or creates; [open(p, 'ab')] keeps the
    contents and creates a missing file. *)
Definition open_write (p : string) (m : open_mode) : M unit :=
  fun s => match st_fs s !! p with
           | Some Unstatable => (s, Exc (OSError p))
           | e =>
             let d := match m, e with
                      | ModeAB, Some (Reg d) => d
                      | _, _ => []
                      end in
             (set_log (st_log s ++ [EOpen p m]) (set_fs (<[p := Reg d]> (st_fs s)) s),
              Ok tt)
           end.

(** [fdst.write(buf)] *)
Definition write_chunk (p : string) (buf : list Z) : M unit :=
  modify (fun s =>
    let d := match st_fs s !! p with Some (Reg d) => d | _ => [] end in
    set_fs (<[p := Reg (d ++ buf)]> (st_fs s)) s).

Fixpoint takeZ {A} (n : Z) (l : list A) : list A :=
  match l with
  | [] => []
  | x :: r => if n <=? 0 then [] else x :: takeZ (n - 1) r
  end.

Fixpoint dropZ {A} (n : Z) (l : list A) : list A :=
  match l with
  | [] => []
  | x :: r => if n <=? 0 then l else dropZ (n - 1) r
  end.

(** [f.read(n)] on a handle positioned at [pos]. *)
Definition read_chunk (data : list Z) (pos n : Z) : list Z :=
  takeZ n (dropZ pos data).

Definition zlen {A} (l : list A) : Z := Z.of_nat (length l).

(** os.path.basename *)
Fixpoint basename_aux (s cur : string) : string :=
  match s with
  | EmptyString => cur
  | String c r =>
    if Ascii.eqb c "/"%char then basename_aux r EmptyString
    else basename_aux r (cur ++ String c EmptyString)
  end.
Definition basename (s : string) : string := basename_aux s EmptyString.

(** Hash algorithms selected by the workers. *)
Inductive hash_alg := XXH64 | MD5.

(** [while chunk := f.read(n): hasher.update(chunk)]: the bytes absorbed by
    the hasher.  [fuel] bounds the number of reads. *)
Fixpoint hash_loop (n : Z) (fuel : nat) (data : list Z) (pos : Z)
         (absorbed : list Z) : list Z :=
  match fuel with
  | O => absorbed
  | S f =>
    match read_chunk data pos n with
    | [] => absorbed
    | chunk => hash_loop n f data (pos + zlen chunk) (absorbed ++ chunk)
    end
  end.

Section Transfer.

(** The digest of a stream of bytes (xxhash.xxh64 / hashlib.md5,
    [hexdigest()] after the [update] calls).  Both libraries are
    streaming: the digest depends on the concatenated stream only. *)
Variable digest : hash_alg -> list Z -> string.

Definition CHUNK_SIZE : Z := 4 * 1024 * 1024.

(** TransferWorker._calculate_hash *)
Definition calculate_hash (p : string) (method : string) : M string :=
  let alg := if String.eqb method "xxHash (Fast)" then XXH64 else MD5 in
  data <- open_read p ;;
  ret (digest alg (hash_loop CHUNK_SIZE (S (length data)) data 0 [])).

(** The [while True] loop of _copy_file_with_progress. *)
Fixpoint copy_loop (fuel : nat) (dst : string) (data : list Z) (pos : Z) : M unit :=
  match fuel with
  | O => ret tt
  | S f =>
    c <- observe_cancel ;;
    if c then raise InterruptedError else
    match read_chunk data pos CHUNK_SIZE with
    | [] => ret tt
    | buf => write_chunk dst buf ;;; copy_loop f dst data (pos + zlen buf)
    end
  end.

(** The bytes a read handle on [p] returns. *)
Definition file_contents (p : string) (s : state) : list Z :=
  match st_fs s !! p with Some (Reg d) => d | _ => [] end.

(** TransferWorker._copy_file_with_progress.  [fsrc] reads [src] as it
    stands once [fdst] is open: the loop writes to [dst] only, so these are
    the source bytes, unless [dst] is [src] itself, which the 'wb' open has
    just truncated. *)
Definition copy_file_with_progress (j : job) (src dst : string) : M unit :=
  src_size <- os_path_getsize src ;;
  mp <- (if resume_partial j then
           e <- os_path_exists dst ;;
           if e then
             dest_size <- os_path_getsize dst ;;
             ret (if (0 <? dest_size) && (dest_size <? src_size)
                  then (ModeAB, dest_size) else (ModeWB, 0))
           else ret (ModeWB, 0)
         else ret (ModeWB, 0)) ;;
  open_read src ;;;
  open_write dst (fst mp) ;;;
  data <- gets (file_contents src) ;;
  copy_loop (S (length data)) dst data (snd mp).

(** [self.job['resolved_dests'][src]] *)
Definition lookup_dests (j : job) (src : string) : M (list string) :=
  match find (fun kv => String.eqb (fst kv) src) (resolved_dests j) with
  | Some (_, ds) => ret ds
  | None => raise (KeyError src)
  end.

Definition opt_eqb (a b : option string) : bool :=
  match a, b with
  | Some x, Some y => String.eqb x y
  | None, None => true
  | _, _ => false
  end.

(** The body of [for dest_file_path in ...] in TransferWorker.run;
    [va] is verified_all_dests.  os.makedirs is taken to succeed. *)
Fixpoint dest_loop (j : job) (src : string) (source_hash : option string)
         (size : Z) (dests : list string) (va : bool) : M bool :=
  match dests with
  | [] => ret va
  | dst :: rest =>
    should_skip <- (if skip_existing j then
                      e <- os_path_exists dst ;;
                      if e then
                        ds <- os_path_getsize dst ;;
                        ret (size =? ds)
                      else ret false
                    else ret false) ;;
    (if negb should_skip then copy_file_with_progress j src dst else ret tt) ;;;
    match verification_mode j with
    | VNone =>
      add_dest (mkDest dst false (Some DUnverified)) ;;;
      dest_loop j src source_hash size rest va
    | m =>
      e <- os_path_exists dst ;;
      if negb e then
        add_error (EMissing (basename src)) ;;;
        add_dest (mkDest dst false (Some DMissing)) ;;;
        dest_loop j src source_hash size rest false
      else
        ds <- os_path_getsize dst ;;
        if negb (size =? ds) then
          add_error (ESizeMismatch (basename src)) ;;;
          add_dest (mkDest dst false (Some DSizeMismatch)) ;;;
          dest_loop j src source_hash size rest false
        else
          match m with
          | VSize =>
            add_dest (mkDest dst true (Some DVerifiedSizeOnly)) ;;;
            dest_loop j src source_hash size rest va
          | _ =>
            dest_hash <- calculate_hash dst (checksum_method j) ;;
            if opt_eqb source_hash (Some dest_hash) then
              add_dest (mkDest dst true None) ;;;
              dest_loop j src source_hash size rest va
            else
              add_error (EVerifyFailed (basename src)) ;;;
              add_dest (mkDest dst false (Some DVerifyFailed)) ;;;
              dest_loop j src source_hash size rest false
          end
    end
  end.

(** The [try] block for one file (workers.py lines 250-311). *)
Definition process_file_body (j : job) (src : string) : M unit :=
  source_hash <- (match verification_mode j with
                  | VFull =>
                    h <- calculate_hash src (checksum_method j) ;;
                    upd_file (fi_set_checksum h) ;;;
                    ret (Some h)
                  | _ => ret None
                  end) ;;
  size <- os_path_getsize src ;;
  upd_file (fi_set_size size) ;;;
  dests <- lookup_dests j src ;;
  va <- dest_loop j src source_hash size dests true ;;
  (if va then upd_file (fi_set_status FVerified)
   else match verification_mode j with
        | VNone => upd_file (fi_set_status FCopiedUnverified)
        | _ => ret tt
        end) ;;;
  append_file.

(** One file: the fresh file_info, the [try]/[except] around the body. *)
Definition process_file (j : job) (src : string) : M unit :=
  upd_file (fun _ => mkFile src [] FFailed EmptyString None) ;;;
  try_except (process_file_body j src)
    (fun e => upd_file (fi_set_status (FError e)) ;;;
              append_file ;;;
              add_error (EProcessing (basename src) e)).

(** [report_data['status']='Cancelled'; self.job_finished.emit(...); return] *)
Definition cancel_return {A} : M A :=
  upd_report (r_set_status JCancelled) ;;; early_return.

Definition size_or_0 (o : option Z) : Z :=
  match o with Some n => n | None => 0 end.

Definition is_verified (st : file_status) : bool :=
  match st with FVerified => true | _ => false end.

(** [for i, (source_file_path, base_source_path) in enumerate(files_to_process)];
    [total] is total_bytes_processed. *)
Fixpoint file_loop (j : job) (files : list (string * string)) (total : Z) : M unit :=
  match files with
  | [] => ret tt
  | (src, _) :: rest =>
    c <- observe_cancel ;;
    if c then cancel_return else
    process_file j src ;;;
    fi <- gets st_file ;;
    let total' := if is_verified (fi_status fi) then total + size_or_0 (fi_size fi)
                  else total in
    emit_progress total' ;;;
    file_loop j rest total'
  end.

(** [all_source_files[full_path] = source_path]: a Python dict keeps the
    position of a key that is assigned again. *)
Fixpoint dict_set (k v : string) (d : list (string * string)) : list (string * string) :=
  match d with
  | [] => [(k, v)]
  | (k', v') :: r => if String.eqb k k' then (k, v) :: r else (k', v') :: dict_set k v r
  end.

Definition ends_in_slash (s : string) : bool :=
  match String.get (String.length s - 1) s with
  | Some c => Ascii.eqb c "/"%char
  | None => false
  end.

(** The files that [os.walk(root)] yields, as [os.path.join(dirpath, f)]:
    every entry below [root].  The paths of [fs] are normalised; [root] may
    end in '/' (then [os.path.join] adds no separator).  [os.walk('')]
    yields nothing. *)
Definition walk (fs : gmap string fentry) (root : string) : list string :=
  match root with
  | EmptyString => []
  | _ =>
    let dir := if ends_in_slash root then root else String.append root "/" in
    List.filter (fun p => String.prefix dir p) (map fst (map_to_list fs))
  end.

Fixpoint walk_files (files : list string) (base : string)
         (d : list (string * string)) : M (list (string * string)) :=
  match files with
  | [] => ret d
  | p :: r =>
    c <- observe_cancel ;;
    if c then cancel_return else walk_files r base (dict_set p base d)
  end.

Fixpoint walk_sources (srcs : list string) (d : list (string * string))
  : M (list (string * string)) :=
  match srcs with
  | [] => ret d
  | sp :: r =>
    fs <- gets st_fs ;;
    d' <- walk_files (walk fs sp) sp d ;;
    walk_sources r d'
  end.

(** files_to_process: [try: getsize ... except FileNotFoundError: continue] *)
Fixpoint collect_sizes (d : list (string * string)) : M (list (string * string)) :=
  match d with
  | [] => ret []
  | (p, b) :: r =>
    ok <- try_except
            (size <- os_path_getsize p ;;
             upd_report (fun rep => r_set_total (r_total_size rep + size) rep) ;;;
             ret true)
            (fun e => match e with FileNotFoundError _ => ret false | _ => raise e end) ;;
    rest <- collect_sizes r ;;
    ret (if ok then (p, b) :: rest else rest)
  end.

(** [all(f['status'] == 'Verified' for f in files if f['source'].startswith(sp))] *)
Definition fully_verified (sp : string) (files : list file_info) : bool :=
  forallb (fun f => negb (String.prefix sp (fi_source f)) || is_verified (fi_status f))
          files.

Fixpoint eject_loop (srcs : list string) (acc : list string) : M (list string) :=
  match srcs with
  | [] => ret acc
  | sp :: r =>
    m <- os_path_ismount sp ;;
    if negb m then eject_loop r acc else
    files <- gets (fun s => r_files (st_report s)) ;;
    eject_loop r (if fully_verified sp files then acc ++ [sp] else acc)
  end.

(** The [try] block of TransferWorker.run.  [set(self.job['sources'])] is
    the list without duplicates; Python iterates a set in hash order, so
    only membership in the result is meaningful. *)
Definition run_body (j : job) : M unit :=
  emit_progress 0 ;;;
  d <- walk_sources (sources j) [] ;;
  files <- collect_sizes d ;;
  emit_progress 0 ;;;
  file_loop j files 0 ;;;
  upd_report (r_set_ejectable []) ;;;
  if eject_on_completion j then
    ej <- eject_loop (nodup String.string_dec (sources j)) [] ;;
    upd_report (r_set_ejectable ej)
  else ret tt.

(** TransferWorker.run *)
Definition run (j : job) : M unit :=
  try_except (run_body j)
    (fun e => upd_report (r_set_status JFailed) ;;; add_error (ECritical e)) ;;;
  r <- gets st_report ;;
  match r_errors r with
  | [] => ret tt
  | _ :: _ => upd_report (r_set_status JCompletedWithErrors)
  end.

Definition init_file : file_info := mkFile EmptyString [] FFailed EmptyString None.

(** A worker started on file system [fs], with mount points [mounts], whose
    [cancel()] takes effect from flag observation [cancel_at] on. *)
Definition init_state (fs : gmap string fentry) (mounts : list string)
           (cancel_at : option nat) : state :=
  mkState fs mounts 0 cancel_at [] [] empty_report init_file.

(** The report passed to [job_finished.emit]: on the early [return] it is
    the report at that point, otherwise the report at the end of [run]. *)
Definition finished_report (j : job) (s0 : state) : report :=
  st_report (fst (run j s0)).

End Transfer.

(* ------------------------------------------------------------------ *)
(** ** Program logic for the worker monad *)

(** [triple P m Q E]: from a state satisfying [P], [m] either succeeds with
    [a] in a state satisfying [Q a], or raises / returns early in a state
    satisfying [E]. *)
Definition triple {A} (P : state -> Prop) (m : M A) (Q : A -> state -> Prop)
           (E : state -> Prop) : Prop :=
  forall s, P s -> match m s with
                   | (s', Ok a) => Q a s'
                   | (s', _) => E s'
                   end.

(** An invariant of [m]. *)
Definition keeps {A} (P : state -> Prop) (m : M A) : Prop :=
  triple P m (fun _ => P) P.

(** Invariants that the file-system, flag and log updates cannot break. *)
Definition stable (P : state -> Prop) : Prop :=
  forall s, P s ->
    (forall fs, P (set_fs fs s)) /\ (forall n, P (set_obs n s)) /\
    (forall l, P (set_log l s)).

Lemma triple_ret {A} (P : state -> Prop) (a : A) Q E :
  (forall s, P s -> Q a s) -> triple P (ret a) Q E.
Proof. intros H s Hs. exact (H s Hs). Qed.

Lemma triple_bind {A B} P (m : M A) (f : A -> M B) Q R E :
  triple P m Q E -> (forall a, triple (Q a) (f a) R E) -> triple P (bind m f) R E.
Proof.
  intros Hm Hf s Hs. unfold bind. specialize (Hm s Hs).
  destruct (m s) as [s1 [a| e |]]; [apply Hf| |]; exact Hm.
Qed.

Lemma triple_try {A} P (m : M A) (h : exn -> M A) Q E :
  triple P m Q E -> (forall e, triple E (h e) Q E) -> triple P (try_except m h) Q E.
Proof.
  intros Hm Hh s Hs. unfold try_except. specialize (Hm s Hs).
  destruct (m s) as [s1 [a| e |]]; [exact Hm| apply Hh; exact Hm| exact Hm].
Qed.

Lemma triple_raise {A} P e (Q : A -> state -> Prop) (E : state -> Prop) :
  (forall s, P s -> E s) -> triple P (raise e) Q E.
Proof. intros H s Hs. exact (H s Hs). Qed.

Lemma triple_early {A} P (Q : A -> state -> Prop) (E : state -> Prop) :
  (forall s, P s -> E s) -> triple P early_return Q E.
Proof. intros H s Hs. exact (H s Hs). Qed.

Lemma triple_modify P f Q E :
  (forall s, P s -> Q tt (f s)) -> triple P (modify f) Q E.
Proof. intros H s Hs. exact (H s Hs). Qed.

Lemma triple_gets {A} P (g : state -> A) Q E :
  (forall s, P s -> Q (g s) s) -> triple P (gets g) Q E.
Proof. intros H s Hs. exact (H s Hs). Qed.

Lemma triple_conseq {A} (P P' : state -> Prop) (m : M A) Q Q' (E E' : state -> Prop) :
  triple P' m Q' E' -> (forall s, P s -> P' s) ->
  (forall a s, Q' a s -> Q a s) -> (forall s, E' s -> E s) -> triple P m Q E.
Proof.
  intros H HP HQ HE s Hs. specialize (H s (HP s Hs)).
  destruct (m s) as [s1 [a| |]]; auto.
Qed.

Lemma keeps_bind {A B} P (m : M A) (f : A -> M B) :
  keeps P m -> (forall a, keeps P (f a)) -> keeps P (bind m f).
Proof. intros; eapply triple_bind; eauto. Qed.

Lemma keeps_try {A} P (m : M A) h :
  keeps P m -> (forall e, keeps P (h e)) -> keeps P (try_except m h).
Proof. intros; apply triple_try; auto. Qed.

Lemma keeps_ret {A} P (a : A) : keeps P (ret a).
Proof. apply triple_ret; auto. Qed.

Lemma keeps_raise {A} P e : keeps (A:=A) P (raise e).
Proof. apply triple_raise; auto. Qed.

Lemma keeps_early {A} P : keeps (A:=A) P early_return.
Proof. apply triple_early; auto. Qed.

Lemma keeps_gets {A} P (g : state -> A) : keeps P (gets g).
Proof. apply triple_gets; auto. Qed.

Lemma keeps_modify P f : (forall s, P s -> P (f s)) -> keeps P (modify f).
Proof. intros; apply triple_modify; auto. Qed.

(** The world operations keep every stable invariant. *)
Section World.
Variable P : state -> Prop.
Hypothesis HP : stable P.

Lemma keeps_observe_cancel : keeps P observe_cancel.
Proof. intros s Hs. apply (HP s Hs). Qed.

Lemma keeps_exists p : keeps P (os_path_exists p).
Proof. apply keeps_gets. Qed.

Lemma keeps_ismount p : keeps P (os_path_ismount p).
Proof. apply keeps_gets. Qed.

Lemma triple_getsize p :
  triple P (os_path_getsize p) (fun n s => P s /\ 0 <= n) P.
Proof.
  intros s Hs. unfold os_path_getsize.
  destruct (st_fs s !! p) as [[d|]|]; auto. split; [exact Hs| lia].
Qed.

Lemma keeps_getsize p : keeps P (os_path_getsize p).
Proof. eapply triple_conseq; [apply triple_getsize| | |]; simpl; tauto. Qed.

Lemma keeps_open_read p : keeps P (open_read p).
Proof.
  intros s Hs. unfold open_read.
  destruct (st_fs s !! p) as [[d|]|]; auto. apply (HP s Hs).
Qed.

Lemma keeps_open_write p m : keeps P (open_write p m).
Proof.
  intros s Hs. unfold open_write.
  destruct (st_fs s !! p) as [[d|]|]; try exact Hs;
    apply (HP _ (proj1 (HP s Hs) _)).
Qed.

Lemma keeps_write_chunk p b : keeps P (write_chunk p b).
Proof. apply keeps_modify. intros s Hs. apply (HP s Hs). Qed.

End World.

Ltac keeps_step :=
  match goal with
  | |- triple _ _ _ _ =>
    cbv beta; match goal with |- triple ?P ?m (fun _ => ?P) ?P => change (keeps P m) end
  | |- keeps _ (bind _ _) => apply keeps_bind; [|intros ?; cbv beta]
  | |- keeps _ (try_except _ _) => apply keeps_try; [|intros ?]
  | |- keeps _ (ret _) => apply keeps_ret
  | |- keeps _ (raise _) => apply keeps_raise
  | |- keeps _ early_return => apply keeps_early
  | |- keeps _ (gets _) => apply keeps_gets
  | |- keeps _ observe_cancel => apply keeps_observe_cancel; try assumption
  | |- keeps _ (os_path_exists _) => apply keeps_exists; try assumption
  | |- keeps _ (os_path_ismount _) => apply keeps_ismount; try assumption
  | |- keeps _ (os_path_getsize _) => apply keeps_getsize; try assumption
  | |- keeps _ (open_read _) => apply keeps_open_read; try assumption
  | |- keeps _ (open_write _ _) => apply keeps_open_write; try assumption
  | |- keeps _ (write_chunk _ _) => apply keeps_write_chunk; try assumption
  | |- keeps _ (if ?b then _ else _) => destruct b
  | |- keeps _ (match ?x with _ => _ end) => destruct x
  end.

Ltac keeps_auto := repeat keeps_step.

Section Invariants.
Variable digest : hash_alg -> list Z -> string.
Variable P : state -> Prop.
Hypothesis HP : stable P.

Lemma keeps_calculate_hash p m : keeps P (calculate_hash digest p m).
Proof. unfold calculate_hash. keeps_auto. Qed.

Lemma keeps_copy_loop fuel dst data pos : keeps P (copy_loop fuel dst data pos).
Proof.
  revert pos. induction fuel as [|f IH]; intros pos; simpl; keeps_auto.
  all: try apply IH.
Qed.

Lemma keeps_copy_file j src dst : keeps P (copy_file_with_progress j src dst).
Proof. unfold copy_file_with_progress. keeps_auto. apply keeps_copy_loop. Qed.

Hypothesis H_err : forall s e, P s ->
  P (set_report (r_set_errors (r_errors (st_report s) ++ [e]) (st_report s)) s).
Hypothesis H_dest : forall s d, P s ->
  P (set_file (fi_set_dests (fi_dests (st_file s) ++ [d]) (st_file s)) s).

Lemma keeps_add_error e : keeps P (add_error e).
Proof. apply keeps_modify. intros; apply H_err; assumption. Qed.

Lemma keeps_add_dest d : keeps P (add_dest d).
Proof. apply keeps_modify. intros; apply H_dest; assumption. Qed.

Lemma keeps_dest_loop j src sh size dests va :
  keeps P (dest_loop digest j src sh size dests va).
Proof.
  revert va. induction dests as [|dst rest IH]; intros va; simpl; keeps_auto;
    first [apply IH | apply keeps_copy_file | apply keeps_calculate_hash
          | apply keeps_add_error | apply keeps_add_dest].
Qed.

Lemma keeps_lookup_dests j src : keeps P (lookup_dests j src).
Proof. unfold lookup_dests. keeps_auto. Qed.

End Invariants.

Section Phases.
Variable digest : hash_alg -> list Z -> string.
Variable P : state -> Prop.
Hypothesis HP : stable P.

Definition keeps_report (f : report -> report) : Prop :=
  forall s, P s -> P (set_report (f (st_report s)) s).

Lemma keeps_upd_report f : keeps_report f -> keeps P (upd_report f).
Proof. intros H. apply keeps_modify. exact H. Qed.

Lemma keeps_cancel_return {A} :
  keeps_report (r_set_status JCancelled) -> keeps (A:=A) P cancel_return.
Proof. intros H. unfold cancel_return. keeps_auto. apply keeps_upd_report, H. Qed.

Lemma keeps_walk_files files base d :
  keeps_report (r_set_status JCancelled) -> keeps P (walk_files files base d).
Proof.
  intros H. revert d. induction files as [|p r IH]; intros d; simpl; keeps_auto.
  - apply keeps_cancel_return, H.
  - apply IH.
Qed.

Lemma keeps_walk_sources srcs d :
  keeps_report (r_set_status JCancelled) -> keeps P (walk_sources srcs d).
Proof.
  intros H. revert d. induction srcs as [|sp r IH]; intros d; simpl; keeps_auto.
  - apply keeps_walk_files, H.
  - apply IH.
Qed.

Lemma keeps_collect_sizes d :
  (forall n, keeps_report (fun rep => r_set_total (r_total_size rep + n) rep)) ->
  keeps P (collect_sizes d).
Proof.
  intros H. induction d as [|[p b] r IH]; simpl; keeps_auto.
  - apply keeps_upd_report, H.
  - apply IH.
Qed.

Lemma keeps_eject_loop srcs acc : keeps P (eject_loop srcs acc).
Proof.
  revert acc. induction srcs as [|sp r IH]; intros acc; simpl; keeps_auto; apply IH.
Qed.

End Phases.

(** Invariant of C10: the status is not 'Failed'. *)
Definition not_failed (s : state) : Prop := r_status (st_report s) <> JFailed.

Lemma stable_not_failed : stable not_failed.
Proof. intros s Hs. repeat split; intros; exact Hs. Qed.

Lemma keeps_not_failed_file_loop digest j files total :
  keeps not_failed (file_loop digest j files total).
Proof.
  pose proof stable_not_failed as HS.
  revert total. induction files as [|[src b] r IH]; intros total; simpl; keeps_auto.
  - apply keeps_cancel_return; try exact HS. intros s _. simpl. discriminate.
  - unfold process_file. keeps_auto.
    + apply keeps_modify. intros s Hs. exact Hs.
    + unfold process_file_body. keeps_auto;
        first [ apply keeps_calculate_hash; exact HS
              | apply keeps_getsize; exact HS
              | apply keeps_lookup_dests
              | apply keeps_dest_loop; try exact HS; intros s ? Hs; exact Hs
              | apply keeps_modify; intros s Hs; exact Hs ].
    + apply keeps_modify. intros s Hs. exact Hs.
    + apply keeps_modify. intros s Hs. exact Hs.
    + apply keeps_modify. intros s Hs. exact Hs.
  - apply keeps_modify. intros s Hs. exact Hs.
  - apply IH.
Qed.

Lemma keeps_not_failed_run_body digest j : keeps not_failed (run_body digest j).
Proof.
  pose proof stable_not_failed as HS.
  unfold run_body. keeps_auto;
    first [ apply keeps_modify; intros s Hs; exact Hs
          | apply keeps_walk_sources; try exact HS; intros s _; simpl; discriminate
          | apply keeps_collect_sizes; try exact HS; intros n s Hs; exact Hs
          | apply keeps_not_failed_file_loop
          | apply keeps_eject_loop; exact HS ].
Qed.

(** ** C10 *)

(** C10: the report that [TransferWorker.run] emits never has status
    'Failed': the job-level handler sets 'Failed' but appends an error
    string, and the final rewrite then sets 'Completed with errors'; the
    early [return] on cancellation emits 'Cancelled'. *)
Theorem run_status_never_failed digest j fs mounts cancel_at :
  r_status (finished_report digest j (init_state fs mounts cancel_at)) <> JFailed.
Proof.
  set (s0 := init_state fs mounts cancel_at).
  assert (H0 : not_failed s0) by (unfold not_failed; simpl; discriminate).
  pose proof (keeps_not_failed_run_body digest j s0 H0) as H.
  unfold finished_report, run, bind, try_except.
  destruct (run_body digest j s0) as [s1 [a| e |]]; simpl in H |- *.
  - destruct (r_errors (st_report s1)); simpl; [exact H | discriminate].
  - destruct (r_errors (st_report s1)); simpl; discriminate.
  - exact H.
Qed.

(* ------------------------------------------------------------------ *)
(** ** Progress bytes (C8) *)

(** What [total_bytes_processed] adds for one file:
    [file_info.get('size', 0)] if its status is 'Verified'. *)
Definition file_bytes (f : file_info) : Z :=
  if is_verified (fi_status f) then size_or_0 (fi_size f) else 0.

Definition verified_bytes (l : list file_info) : Z :=
  fold_right (fun f acc => file_bytes f + acc) 0 l.

Definition size_ok (f : file_info) : Prop := 0 <= size_or_0 (fi_size f).

Lemma verified_bytes_app l1 l2 :
  verified_bytes (l1 ++ l2) = verified_bytes l1 + verified_bytes l2.
Proof. induction l1 as [|f l IH]; simpl; [reflexivity| rewrite IH; lia]. Qed.

Lemma file_bytes_nonneg f : size_ok f -> 0 <= file_bytes f.
Proof. unfold size_ok, file_bytes. destruct (is_verified _); lia. Qed.

Lemma verified_bytes_nonneg l : Forall size_ok l -> 0 <= verified_bytes l.
Proof.
  induction 1 as [|f l Hf _ IH]; simpl; [lia|].
  pose proof (file_bytes_nonneg f Hf). lia.
Qed.

Lemma verified_bytes_firstn_le l n :
  Forall size_ok l -> verified_bytes (firstn n l) <= verified_bytes l.
Proof.
  intros H. rewrite <- (firstn_skipn n l) at 2. rewrite verified_bytes_app.
  pose proof (verified_bytes_nonneg (skipn n l) (Forall_drop _ n l H)). lia.
Qed.

Lemma StronglySorted_snoc (l : list Z) y :
  StronglySorted Z.le l -> (forall x, In x l -> x <= y) ->
  StronglySorted Z.le (l ++ [y]).
Proof.
  induction l as [|a l IH]; intros Hs Hy; simpl.
  - constructor; constructor.
  - inversion Hs as [|? ? Hl Ha]; subst. constructor.
    + apply IH; [exact Hl| intros x Hx; apply Hy; right; exact Hx].
    + apply Forall_app; split; [exact Ha| constructor; [apply Hy; left; reflexivity| constructor]].
Qed.

(** The invariant of the emitted byte counts. *)
Definition progress_inv (s : state) : Prop :=
  StronglySorted Z.le (st_progress s) /\
  Forall size_ok (r_files (st_report s)) /\
  (forall x, In x (st_progress s) ->
     exists n, (n <= length (r_files (st_report s)))%nat /\
               x = verified_bytes (firstn n (r_files (st_report s)))).

Lemma progress_inv_ext s s' :
  st_progress s' = st_progress s -> r_files (st_report s') = r_files (st_report s) ->
  progress_inv s -> progress_inv s'.
Proof. unfold progress_inv. intros -> ->. tauto. Qed.

Lemma stable_progress_inv : stable progress_inv.
Proof. intros s Hs. repeat split; intros; apply (progress_inv_ext s); auto. Qed.

(** Appending a file record to report_data['files']. *)
Lemma progress_inv_snoc_file s s' f :
  progress_inv s -> size_ok f -> st_progress s' = st_progress s ->
  r_files (st_report s') = r_files (st_report s) ++ [f] -> progress_inv s'.
Proof.
  intros [Hso [Hok Hx]] Hf Hp Hfl. unfold progress_inv. rewrite Hp, Hfl.
  split; [exact Hso|]. split.
  - apply Forall_app; split; [exact Hok| constructor; [exact Hf| constructor]].
  - intros x Hin. destruct (Hx x Hin) as [n [Hn ->]]. exists n. split.
    + rewrite length_app. lia.
    + rewrite firstn_app. replace (n - length (r_files (st_report s)))%nat with 0%nat by lia.
      simpl. rewrite app_nil_r. reflexivity.
Qed.

(** Emitting the verified total of report_data['files']. *)
Lemma progress_inv_emit s s' :
  progress_inv s -> r_files (st_report s') = r_files (st_report s) ->
  st_progress s' = st_progress s ++ [verified_bytes (r_files (st_report s))] ->
  progress_inv s'.
Proof.
  intros [Hso [Hok Hx]] Hfl Hp. unfold progress_inv. rewrite Hp, Hfl.
  split; [|split; [exact Hok|]].
  - apply StronglySorted_snoc; [exact Hso|]. intros x Hin.
    destruct (Hx x Hin) as [n [_ ->]]. apply verified_bytes_firstn_le, Hok.
  - intros x Hin. apply in_app_or in Hin as [Hin|[<-|[]]].
    + exact (Hx x Hin).
    + exists (length (r_files (st_report s))). split; [lia|].
      rewrite firstn_all. reflexivity.
Qed.

Lemma keeps_weaken {A} P (m : M A) (E : state -> Prop) :
  keeps P m -> (forall s, P s -> E s) -> triple P m (fun _ => P) E.
Proof. intros H HE. eapply triple_conseq; [exact H| | |]; auto. Qed.

Lemma triple_intro_state {A} P (m : M A) Q E :
  (forall s0, P s0 -> triple (fun s => s = s0) m Q E) -> triple P m Q E.
Proof. intros H s Hs. exact (H s Hs s eq_refl). Qed.

Lemma triple_bind_keeps {A B} P (m : M A) (f : A -> M B) Q :
  keeps P m -> (forall a, triple P (f a) Q P) -> triple P (bind m f) Q P.
Proof. intros; eapply triple_bind; eauto. Qed.

Definition files_progress (fl : list file_info) (p : list Z) (s : state) : Prop :=
  r_files (st_report s) = fl /\ st_progress s = p.

Definition body_inv (fl : list file_info) (p : list Z) (s : state) : Prop :=
  files_progress fl p s /\ size_ok (st_file s).

Definition appended (fl : list file_info) (p : list Z) (s : state) : Prop :=
  r_files (st_report s) = fl ++ [st_file s] /\ st_progress s = p /\ size_ok (st_file s).

Lemma stable_body_inv fl p : stable (body_inv fl p).
Proof. intros s Hs. split; [|split]; intros; exact Hs. Qed.

(** The body of the per-file [try] ends by appending its file_info. *)
Lemma triple_process_file_body digest j src fl p :
  triple (body_inv fl p) (process_file_body digest j src)
         (fun _ => appended fl p) (body_inv fl p).
Proof.
  pose proof (stable_body_inv fl p) as HS.
  unfold process_file_body.
  apply triple_bind_keeps.
  { destruct (verification_mode j); keeps_auto;
      first [apply keeps_calculate_hash; exact HS
            | apply keeps_modify; intros s Hs; exact Hs]. }
  intros sh. cbv beta.
  eapply triple_bind; [apply triple_getsize; exact HS|].
  intros n. cbv beta.
  apply (triple_bind _ _ _ (fun _ => body_inv fl p)).
  { apply triple_modify. intros s [[Hb _] Hn]. split; [exact Hb| exact Hn]. }
  intros _. cbv beta.
  apply triple_bind_keeps; [apply keeps_lookup_dests|].
  intros ds. cbv beta.
  apply triple_bind_keeps.
  { apply keeps_dest_loop; try exact HS; intros s ? Hs; exact Hs. }
  intros va. cbv beta.
  apply triple_bind_keeps.
  { destruct va; [|destruct (verification_mode j)]; keeps_auto;
      apply keeps_modify; intros s Hs; exact Hs. }
  intros _. apply triple_modify. intros s [[Hf Hp] Hok].
  unfold appended; simpl. rewrite Hf. auto.
Qed.

(** One iteration of the file loop appends exactly one file_info. *)
Lemma triple_process_file digest j src fl p :
  triple (files_progress fl p) (process_file digest j src)
         (fun _ => appended fl p) (body_inv fl p).
Proof.
  unfold process_file.
  apply (triple_bind _ _ _ (fun _ => body_inv fl p)).
  { apply triple_modify. intros s Hs. split; [exact Hs| unfold size_ok; simpl; lia]. }
  intros _. apply triple_try; [apply triple_process_file_body|].
  intros e. apply (triple_bind _ _ _ (fun _ => body_inv fl p)).
  { apply triple_modify. intros s Hs. exact Hs. }
  intros _. apply (triple_bind _ _ _ (fun _ => appended fl p)).
  { apply triple_modify. intros s [[Hf Hp] Hok]. unfold appended; simpl. rewrite Hf. auto. }
  intros _. apply triple_modify. intros s Hs. exact Hs.
Qed.

Lemma triple_file_loop digest j files total :
  triple (fun s => progress_inv s /\ total = verified_bytes (r_files (st_report s)))
         (file_loop digest j files total) (fun _ => progress_inv) progress_inv.
Proof.
  revert total. induction files as [|[src b] r IH]; intros total; simpl.
  - apply triple_ret. tauto.
  - eapply triple_bind.
    { apply keeps_weaken; [apply keeps_observe_cancel|].
      - intros s Hs. split; [|split]; intros; exact Hs.
      - tauto. }
    intros c. destruct c.
    + unfold cancel_return. eapply triple_bind.
      { apply keeps_weaken; [apply keeps_modify|]; [intros s Hs; exact Hs| tauto]. }
      intros ?. apply triple_early. tauto.
    + apply triple_intro_state. intros s0 [Hinv Htot].
      eapply triple_bind.
      { eapply triple_conseq;
          [apply (triple_process_file digest j src (r_files (st_report s0)) (st_progress s0))
          | intros s Hs; rewrite Hs; split; reflexivity | intros ? s Hs; exact Hs | ].
        intros s [[Hf Hp] _]. apply (progress_inv_ext s0); auto. }
      intros ?. cbv beta.
      apply (triple_bind _ _ _ (fun fi s =>
               appended (r_files (st_report s0)) (st_progress s0) s /\ fi = st_file s));
        [apply triple_gets; intros s Hs; exact (conj Hs eq_refl)|].
      intros fi. cbv beta.
      eapply triple_bind; [|intros ?; apply IH].
      apply triple_modify. intros s [[Hf [Hp Hok]] ->].
      set (s1 := set_progress _ s).
      assert (Hs : progress_inv s).
      { apply (progress_inv_snoc_file s0 s (st_file s)); auto. }
      split.
      * apply (progress_inv_emit s s1 Hs); [reflexivity|]. simpl.
        rewrite Hf, verified_bytes_app, <- Htot. simpl. unfold file_bytes.
        destruct (is_verified _); do 2 f_equal; lia.
      * simpl. rewrite Hf, verified_bytes_app, <- Htot. simpl. unfold file_bytes.
        destruct (is_verified _); lia.
Qed.

Lemma triple_fst {A} P (m : M A) R s :
  triple P m (fun _ => R) R -> P s -> R (fst (m s)).
Proof. intros H Hs. specialize (H s Hs). destruct (m s) as [s' [| |]]; exact H. Qed.

Lemma progress_inv_zero s :
  st_progress s = [0] -> r_files (st_report s) = [] -> progress_inv s.
Proof.
  intros Hp Hf. unfold progress_inv. rewrite Hp, Hf. split; [|split].
  - repeat constructor.
  - constructor.
  - intros x [<-|[]]. exists 0%nat. split; reflexivity.
Qed.

Lemma triple_run_body_progress digest j :
  triple (fun s => st_progress s = [] /\ r_files (st_report s) = [])
         (run_body digest j) (fun _ => progress_inv) progress_inv.
Proof.
  set (P1 := fun s => st_progress s = [0] /\ r_files (st_report s) = []).
  assert (HS1 : stable P1) by (intros s Hs; split; [|split]; intros; exact Hs).
  assert (HE1 : forall s, P1 s -> progress_inv s)
    by (intros s [Hp Hf]; apply progress_inv_zero; assumption).
  unfold run_body.
  apply (triple_bind _ _ _ (fun _ => P1)).
  { apply triple_modify. intros s [Hp Hf]. unfold P1; simpl. rewrite Hp. auto. }
  intros ?. eapply triple_bind.
  { apply keeps_weaken; [apply keeps_walk_sources; try exact HS1|exact HE1].
    intros s Hs. exact Hs. }
  intros d. eapply triple_bind.
  { apply keeps_weaken; [apply keeps_collect_sizes; try exact HS1|exact HE1].
    intros n s Hs. exact Hs. }
  intros files.
  apply (triple_bind _ _ _
           (fun _ s => progress_inv s /\ 0 = verified_bytes (r_files (st_report s)))).
  { apply triple_modify. intros s [Hp Hf]. split.
    - apply (progress_inv_emit s);
        [apply progress_inv_zero; assumption| reflexivity| simpl; rewrite Hp, Hf; reflexivity].
    - simpl. rewrite Hf. reflexivity. }
  intros ?. eapply triple_bind; [apply triple_file_loop|].
  intros ?. pose proof stable_progress_inv as HS.
  eapply triple_bind.
  { apply keeps_modify. intros s Hs. exact Hs. }
  intros ?. destruct (eject_on_completion j); keeps_auto;
    first [apply keeps_eject_loop; try exact HS | apply keeps_modify; intros s Hs; exact Hs].
Qed.

Lemma run_progress_inv digest j fs mounts cancel_at :
  progress_inv (fst (run digest j (init_state fs mounts cancel_at))).
Proof.
  apply (triple_fst (fun s => st_progress s = [] /\ r_files (st_report s) = [])
           (run digest j) progress_inv);
    [|split; reflexivity].
  pose proof stable_progress_inv as HS.
  unfold run. eapply triple_bind.
  { apply triple_try; [apply triple_run_body_progress|].
    intros e. keeps_auto; apply keeps_modify; intros s Hs; exact Hs. }
  intros ?. keeps_auto. apply keeps_modify. intros s Hs. exact Hs.
Qed.

(** ** C8 *)

(** C8: over a run of [TransferWorker.run], the bytes-processed values
    emitted by [self.progress] never decrease, and each of them is the sum
    of the sizes of the files with status 'Verified' among the first [n]
    file records of the report: only the sizes of 'Verified' files are
    ever added. *)
Theorem progress_bytes_monotone_verified_only digest j fs mounts cancel_at :
  let s := fst (run digest j (init_state fs mounts cancel_at)) in
  StronglySorted Z.le (st_progress s) /\
  (forall x, In x (st_progress s) ->
     exists n, x = verified_bytes (firstn n (r_files (st_report s)))).
Proof.
  destruct (run_progress_inv digest j fs mounts cancel_at) as [Hso [_ Hx]].
  split; [exact Hso|]. intros x Hin. destruct (Hx x Hin) as [n [_ Hn]]. exists n. exact Hn.
Qed.

(* ------------------------------------------------------------------ *)
(** ** Concrete jobs *)

(** A card with one 3-byte clip. *)
Definition fs_one : gmap string fentry := <["/card/clip.mov" := Reg [1; 2; 3]]> ∅.

Definition job_one (m : vmode) (dests : list string) : job :=
  mkJob "Job_1" ["/card"] "xxHash (Fast)" m false false false
        [("/card/clip.mov", dests)].

(** A digest for the concrete runs: the algorithm tag followed by the bytes. *)
Definition digest_bytes (a : hash_alg) (l : list Z) : string :=
  (match a with XXH64 => "x" | MD5 => "m" end) ++
  String.concat EmptyString (map (fun z => String (ascii_of_nat (Z.to_nat z)) EmptyString) l).

(** Opens of [p] for reading, and opens for writing or appending. *)
Definition count_reads (p : string) (log : list io_event) : nat :=
  length (List.filter (fun e => match e with
                                | EOpen q ModeRB => String.eqb q p
                                | _ => false
                                end) log).
Definition count_writes (log : list io_event) : nat :=
  length (List.filter (fun e => match e with
                                | EOpen _ ModeRB => false
                                | _ => true
                                end) log).

(** ** C1 *)

(** C1 (defect): in verification mode "none" the clip is copied, its
    destination record says verified = False / 'Unverified', and yet the
    file status is 'Verified': verified_all_dests is never cleared on the
    "none" path, so the 'Copied (Unverified)' branch is unreachable. *)
Theorem none_mode_file_marked_verified digest :
  let rep := finished_report digest (job_one VNone ["/dest/clip.mov"])
                             (init_state fs_one [] None) in
  map fi_status (r_files rep) = [FVerified] /\
  map (fun f => map d_verified (fi_dests f)) (r_files rep) = [[false]] /\
  map (fun f => map d_status (fi_dests f)) (r_files rep) = [[Some DUnverified]] /\
  r_status rep = JCompleted.
Proof. vm_compute. repeat split; reflexivity. Qed.

(** ** C3 *)

(** C3 (defect): cancellation requested while the only (hence last)
    file is being copied: the first chunk check raises InterruptedError,
    the per-file handler records it as an error, the loop ends, and the
    job is reported 'Completed with errors' instead of 'Cancelled'.
    Flag observations: 0 in the walk, 1 at the file boundary, 2 at the
    first chunk of the copy. *)
Theorem cancel_during_last_file_not_cancelled digest :
  let rep := finished_report digest (job_one VFull ["/dest/clip.mov"])
                             (init_state fs_one [] (Some 2%nat)) in
  r_status rep = JCompletedWithErrors /\
  map fi_status (r_files rep) = [FError InterruptedError].
Proof. vm_compute. split; reflexivity. Qed.

(** ** C2 *)

(** C2: full verification, two destinations.  The
    source is opened three times: once by [_calculate_hash] and once by
    each [_copy_file_with_progress]; each destination is opened only
    after the hashing pass has finished. *)
Lemma full_mode_source_opened_three_times :
  st_log (fst (run digest_bytes (job_one VFull ["/d1/clip.mov"; "/d2/clip.mov"])
                   (init_state fs_one [] None))) =
  [EOpen "/card/clip.mov" ModeRB;
   EOpen "/card/clip.mov" ModeRB; EOpen "/d1/clip.mov" ModeWB; EOpen "/d1/clip.mov" ModeRB;
   EOpen "/card/clip.mov" ModeRB; EOpen "/d2/clip.mov" ModeWB; EOpen "/d2/clip.mov" ModeRB]
  /\ count_reads "/card/clip.mov"
       (st_log (fst (run digest_bytes (job_one VFull ["/d1/clip.mov"; "/d2/clip.mov"])
                         (init_state fs_one [] None)))) <> 1%nat.
Proof. vm_compute. split; [reflexivity| discriminate]. Qed.

(* ------------------------------------------------------------------ *)
(** ** Resuming a partial copy *)

Lemma takeZ_dropZ {A} (n : Z) (l : list A) : takeZ n l ++ dropZ n l = l.
Proof.
  revert n. induction l as [|x r IH]; intros n; simpl; [reflexivity|].
  destruct (n <=? 0); simpl; [reflexivity|]. rewrite IH. reflexivity.
Qed.

Lemma dropZ_dropZ {A} (a b : Z) (l : list A) :
  0 <= a -> 0 <= b -> dropZ b (dropZ a l) = dropZ (a + b) l.
Proof.
  revert a. induction l as [|x r IH]; intros a Ha Hb; simpl.
  - destruct b; reflexivity.
  - destruct (Z.leb_spec a 0).
    + assert (a = 0) by lia. subst a. reflexivity.
    + rewrite IH by lia. destruct (Z.leb_spec (a + b) 0); [lia|].
      f_equal. lia.
Qed.

Lemma zlen_cons {A} (x : A) (l : list A) : zlen (x :: l) = 1 + zlen l.
Proof. unfold zlen. simpl length. lia. Qed.

Lemma zlen_nonneg {A} (l : list A) : 0 <= zlen l.
Proof. unfold zlen. lia. Qed.

Lemma dropZ_zlen_takeZ {A} (n : Z) (l : list A) :
  0 <= n -> dropZ (zlen (takeZ n l)) l = dropZ n l.
Proof.
  revert n. induction l as [|x r IH]; intros n Hn; simpl; [reflexivity|].
  destruct (Z.leb_spec n 0).
  - reflexivity.
  - rewrite zlen_cons. pose proof (zlen_nonneg (takeZ (n - 1) r)).
    destruct (Z.leb_spec (1 + zlen (takeZ (n - 1) r)) 0); [lia|].
    replace (1 + zlen (takeZ (n - 1) r) - 1) with (zlen (takeZ (n - 1) r)) by lia.
    apply IH. lia.
Qed.

Lemma length_dropZ_le {A} (n : Z) (l : list A) : (length (dropZ n l) <= length l)%nat.
Proof.
  revert n. induction l as [|x r IH]; intros n; simpl; [lia|].
  destruct (n <=? 0); simpl; [lia|]. specialize (IH (n - 1)). lia.
Qed.

Lemma length_dropZ_lt {A} (n : Z) (l : list A) :
  0 < n -> l <> [] -> (length (dropZ n l) < length l)%nat.
Proof.
  intros Hn Hl. destruct l as [|x r]; [contradiction|]. simpl.
  destruct (Z.leb_spec n 0); [lia|]. pose proof (length_dropZ_le (n - 1) r). lia.
Qed.

Lemma takeZ_nonempty {A} (n : Z) (l : list A) : 0 < n -> l <> [] -> takeZ n l <> [].
Proof.
  intros Hn Hl. destruct l as [|x r]; [contradiction|]. simpl.
  destruct (Z.leb_spec n 0); [lia|]. discriminate.
Qed.

(** With no cancellation and enough reads, the copy loop appends the rest
    of the source, from [pos] on, to the destination. *)
Lemma copy_loop_appends fuel dst data pos s d :
  st_cancel_at s = None -> 0 <= pos -> st_fs s !! dst = Some (Reg d) ->
  (length (dropZ pos data) < fuel)%nat ->
  exists s', copy_loop fuel dst data pos s = (s', Ok tt)
    /\ st_fs s' = <[dst := Reg (d ++ dropZ pos data)]> (st_fs s)
    /\ st_log s' = st_log s /\ st_cancel_at s' = None.
Proof.
  revert pos s d. induction fuel as [|f IH]; intros pos s d Hc Hpos Hd Hf; [lia|].
  simpl. unfold bind at 1, observe_cancel. rewrite Hc. cbn -[read_chunk].
  unfold read_chunk.
  destruct (dropZ pos data) as [|x r] eqn:Er.
  - simpl. eexists. split; [reflexivity|]. simpl. split; [|split; [reflexivity|exact Hc]].
    rewrite app_nil_r. symmetry. apply insert_id. exact Hd.
  - assert (Hbuf : takeZ CHUNK_SIZE (x :: r) <> []).
    { apply takeZ_nonempty; [unfold CHUNK_SIZE; lia | discriminate]. }
    destruct (takeZ CHUNK_SIZE (x :: r)) as [|y t] eqn:Et; [contradiction|].
    unfold bind at 1, write_chunk, modify. simpl st_fs. rewrite Hd.
    set (s1 := set_fs (<[dst := Reg (d ++ y :: t)]> (st_fs s)) (set_obs (S (st_obs s)) s)).
    destruct (IH (pos + zlen (y :: t)) s1 (d ++ y :: t)) as [s' [Hrun [Hfs [Hlog Hc']]]].
    + exact Hc.
    + pose proof (zlen_nonneg (y :: t)). lia.
    + unfold s1. simpl. apply lookup_insert_eq.
    + rewrite <- dropZ_dropZ by (pose proof (zlen_nonneg (y :: t)); lia).
      rewrite Er, <- Et, dropZ_zlen_takeZ by (unfold CHUNK_SIZE; lia).
      simpl in Hf. apply (Nat.lt_le_trans _ (length (x :: r))); [|simpl; lia].
      apply length_dropZ_lt; [unfold CHUNK_SIZE; lia|discriminate].
    + exists s'. split; [exact Hrun|]. split; [|split; assumption].
      rewrite Hfs. unfold s1. simpl. rewrite insert_insert_eq. f_equal. f_equal.
      rewrite <- dropZ_dropZ by (pose proof (zlen_nonneg (y :: t)); lia).
      rewrite Er, <- Et, dropZ_zlen_takeZ by (unfold CHUNK_SIZE; lia).
      rewrite <- app_assoc. f_equal. apply takeZ_dropZ.
Qed.

Lemma dropZ_0 {A} (l : list A) : dropZ 0 l = l.
Proof. destruct l; reflexivity. Qed.

(** The copy of one file with resuming on, no cancellation, an existing
    source and an existing destination. *)
Lemma copy_file_resume_run j src dst s sd dd :
  resume_partial j = true -> src <> dst -> st_cancel_at s = None ->
  st_fs s !! src = Some (Reg sd) -> st_fs s !! dst = Some (Reg dd) ->
  let resume := (0 <? zlen dd) && (zlen dd <? zlen sd) in
  exists s', copy_file_with_progress j src dst s = (s', Ok tt)
    /\ st_fs s' !! dst = Some (Reg (if resume then dd ++ dropZ (zlen dd) sd else sd))
    /\ st_log s' = st_log s ++ [EOpen src ModeRB; EOpen dst (if resume then ModeAB else ModeWB)].
Proof.
  intros Hr Hne Hc Hs Hd resume.
  unfold copy_file_with_progress. rewrite Hr.
  unfold bind at 1, os_path_getsize. rewrite Hs.
  unfold bind at 1, bind at 1, os_path_exists, gets. rewrite Hd.
  unfold bind at 1. rewrite Hd.
  change (Z.of_nat (length dd)) with (zlen dd).
  change (Z.of_nat (length sd)) with (zlen sd).
  unfold resume. clear resume.
  destruct ((0 <? zlen dd) && (zlen dd <? zlen sd)) eqn:Ec; unfold ret; cbn [fst snd];
    unfold bind, open_read; rewrite Hs; unfold open_write; cbn [st_fs set_log]; rewrite Hd;
    unfold file_contents; cbn [st_fs set_log set_fs];
    rewrite (lookup_insert_ne _ dst src) by congruence; rewrite Hs.
  - set (s1 := set_log _ _).
    destruct (copy_loop_appends (S (length sd)) dst sd (zlen dd) s1 dd)
      as [s' [Hrun [Hfs [Hlog _]]]].
    + exact Hc.
    + apply zlen_nonneg.
    + unfold s1. simpl. apply lookup_insert_eq.
    + pose proof (length_dropZ_le (zlen dd) sd). lia.
    + exists s'. rewrite Hrun. split; [reflexivity|]. split.
      * rewrite Hfs. apply lookup_insert_eq.
      * rewrite Hlog. unfold s1. simpl. rewrite <- app_assoc. reflexivity.
  - set (s1 := set_log _ _).
    destruct (copy_loop_appends (S (length sd)) dst sd 0 s1 [])
      as [s' [Hrun [Hfs [Hlog _]]]].
    + exact Hc.
    + lia.
    + unfold s1. simpl. apply lookup_insert_eq.
    + rewrite dropZ_0. lia.
    + exists s'. rewrite Hrun. split; [reflexivity|]. split.
      * rewrite Hfs, dropZ_0. apply lookup_insert_eq.
      * rewrite Hlog. unfold s1. simpl. rewrite <- app_assoc. reflexivity.
Qed.

Lemma dropZ_zlen_app {A} (a b : list A) : dropZ (zlen a) (a ++ b) = b.
Proof.
  induction a as [|x r IH]; [apply dropZ_0|].
  rewrite zlen_cons. simpl. pose proof (zlen_nonneg r).
  destruct (Z.leb_spec (1 + zlen r) 0); [lia|].
  replace (1 + zlen r - 1) with (zlen r) by lia. exact IH.
Qed.

Definition fs_resume (sd dd : list Z) : gmap string fentry :=
  <["/card/clip.mov" := Reg sd]> (<["/dest/clip.mov" := Reg dd]> ∅).

Definition job_resume : job :=
  mkJob "Job_1" ["/card"] "xxHash (Fast)" VFull false true false
        [("/card/clip.mov", ["/dest/clip.mov"])].

(** C5 (amended): with resume on, a destination holding [dd] with
    0 < |dd| < |src| is opened in append mode and receives the source bytes
    from offset |dd| on, after its own existing bytes; any other existing
    destination is truncated and receives the whole source. The result is
    the source exactly when the existing bytes are a prefix of the source. *)
Theorem resume_appends_after_existing_bytes j src dst s sd dd :
  resume_partial j = true -> src <> dst -> st_cancel_at s = None ->
  st_fs s !! src = Some (Reg sd) -> st_fs s !! dst = Some (Reg dd) ->
  let resume := (0 <? zlen dd) && (zlen dd <? zlen sd) in
  exists s', copy_file_with_progress j src dst s = (s', Ok tt)
    /\ st_fs s' !! dst = Some (Reg (if resume then dd ++ dropZ (zlen dd) sd else sd))
    /\ st_log s' = st_log s ++ [EOpen src ModeRB; EOpen dst (if resume then ModeAB else ModeWB)]
    /\ (forall r, sd = dd ++ r -> st_fs s' !! dst = Some (Reg sd)).
Proof.
  intros Hr Hne Hc Hs Hd resume.
  destruct (copy_file_resume_run j src dst s sd dd Hr Hne Hc Hs Hd) as [s' [Hrun [Hfs Hlog]]].
  exists s'. split; [exact Hrun|]. split; [exact Hfs|]. split; [exact Hlog|].
  intros r Hsd. rewrite Hfs.
  destruct ((0 <? zlen dd) && (zlen dd <? zlen sd)); [|reflexivity].
  rewrite Hsd, dropZ_zlen_app. reflexivity.
Qed.

Lemma resume_appends_after_existing_bytes_witness :
  let s := init_state (fs_resume [1; 2; 3; 4] [1; 2]) [] None in
  exists s', copy_file_with_progress job_resume "/card/clip.mov" "/dest/clip.mov" s = (s', Ok tt)
    /\ st_fs s' !! "/dest/clip.mov" = Some (Reg [1; 2; 3; 4])
    /\ st_log s' = st_log s ++ [EOpen "/card/clip.mov" ModeRB; EOpen "/dest/clip.mov" ModeAB]
    /\ (forall r, [1; 2; 3; 4] = [1; 2] ++ r -> st_fs s' !! "/dest/clip.mov" = Some (Reg [1; 2; 3; 4])).
Proof.
  intros s.
  apply (resume_appends_after_existing_bytes job_resume "/card/clip.mov" "/dest/clip.mov"
           s [1; 2; 3; 4] [1; 2]).
  - reflexivity.
  - discriminate.
  - reflexivity.
  - vm_compute. reflexivity.
  - vm_compute. reflexivity.
Defined.

(** C5: a destination whose existing prefix differs from the source is
    resumed after that prefix, and the result is not the source. *)
Lemma resume_keeps_mismatched_prefix :
  let s' := fst (copy_file_with_progress job_resume "/card/clip.mov" "/dest/clip.mov"
                   (init_state (fs_resume [1; 2; 3; 4] [9; 9]) [] None)) in
  st_fs s' !! "/dest/clip.mov" = Some (Reg [9; 9; 3; 4])
  /\ st_fs s' !! "/dest/clip.mov" <> Some (Reg [1; 2; 3; 4]).
Proof.
  vm_compute. split; [reflexivity| discriminate].
Qed.

(* ------------------------------------------------------------------ *)
(** ** Ejectable sources (C9) *)

(** The mount table is never changed by the worker. *)
Definition mounts_are (m : list string) (s : state) : Prop := st_mounts s = m.

Lemma stable_mounts_are m : stable (mounts_are m).
Proof. intros s Hs. split; [|split]; intros; exact Hs. Qed.

Lemma keeps_mounts_modify m f :
  (forall s, st_mounts (f s) = st_mounts s) -> keeps (mounts_are m) (modify f).
Proof. intros H. apply keeps_modify. intros s Hs. unfold mounts_are. rewrite H. exact Hs. Qed.

Lemma keeps_mounts_file_loop digest m j files total :
  keeps (mounts_are m) (file_loop digest j files total).
Proof.
  pose proof (stable_mounts_are m) as HS.
  revert total. induction files as [|[src b] r IH]; intros total; simpl; keeps_auto.
  - apply keeps_cancel_return; try exact HS. intros s Hs. exact Hs.
  - unfold process_file. keeps_auto.
    + apply keeps_mounts_modify. reflexivity.
    + unfold process_file_body. keeps_auto;
        first [ apply keeps_calculate_hash; exact HS
              | apply keeps_getsize; exact HS
              | apply keeps_lookup_dests
              | apply keeps_dest_loop; try exact HS; intros s ? Hs; exact Hs
              | apply keeps_mounts_modify; reflexivity ].
    + apply keeps_mounts_modify. reflexivity.
    + apply keeps_mounts_modify. reflexivity.
    + apply keeps_mounts_modify. reflexivity.
  - apply keeps_mounts_modify. reflexivity.
  - apply IH.
Qed.

(** [ismount(sp)] and the [all(...)] test, on the state [eject_loop] reads. *)
Definition ejectable_in (s : state) (sp : string) : bool :=
  existsb (String.eqb sp) (st_mounts s) && fully_verified sp (r_files (st_report s)).

Lemma eject_loop_run srcs acc s :
  eject_loop srcs acc s = (s, Ok (acc ++ List.filter (ejectable_in s) srcs)).
Proof.
  revert acc. induction srcs as [|sp r IH]; intros acc; simpl.
  - rewrite app_nil_r. reflexivity.
  - unfold bind at 1, os_path_ismount, gets.
    destruct (existsb (String.eqb sp) (st_mounts s)) eqn:E1; simpl.
    + unfold bind, gets. rewrite IH.
      destruct (fully_verified sp (r_files (st_report s))) eqn:E2;
        assert (Ee : ejectable_in s sp = fully_verified sp (r_files (st_report s)))
          by (unfold ejectable_in; rewrite E1; reflexivity);
        rewrite Ee, E2; [rewrite <- app_assoc|]; reflexivity.
    + assert (Ee : ejectable_in s sp = false) by (unfold ejectable_in; rewrite E1; reflexivity).
      rewrite Ee. apply IH.
Qed.

Lemma existsb_eqb_In sp l : existsb (String.eqb sp) l = true <-> In sp l.
Proof.
  rewrite existsb_exists. split.
  - intros [x [Hx E]]. apply String.eqb_eq in E. subst. exact Hx.
  - intros H. exists sp. split; [exact H| apply String.eqb_refl].
Qed.

(** The [if eject_on_completion] tail of [run_body], from the state after
    the file loop. *)
Lemma eject_tail_run j s :
  eject_on_completion j = true ->
  (upd_report (r_set_ejectable []) ;;;
   (if eject_on_completion j then
      ej <- eject_loop (nodup String.string_dec (sources j)) [] ;;
      upd_report (r_set_ejectable ej)
    else ret tt)) s
  = (set_report (r_set_ejectable
                   (List.filter (ejectable_in (set_report (r_set_ejectable [] (st_report s)) s))
                      (nodup String.string_dec (sources j)))
                   (r_set_ejectable [] (st_report s))) s, Ok tt).
Proof.
  intros He. rewrite He. unfold bind at 1, upd_report, modify.
  unfold bind. rewrite eject_loop_run. reflexivity.
Qed.

Lemma triple_keeps_then {A B} P (m : M A) (f : A -> M B) Q :
  keeps P m -> (forall a, triple P (f a) Q (fun _ => True)) ->
  triple P (bind m f) Q (fun _ => True).
Proof.
  intros Hm Hf. apply (triple_bind _ _ _ (fun _ => P)); [|exact Hf].
  eapply triple_conseq; [exact Hm| | |]; auto.
Qed.

Definition ejectable_ok (j : job) (m : list string) (s : state) : Prop :=
  List.NoDup (r_ejectable (st_report s)) /\
  forall sp, In sp (r_ejectable (st_report s)) <->
             In sp (sources j) /\ In sp m /\ fully_verified sp (r_files (st_report s)) = true.

Lemma triple_run_body_eject digest j m :
  eject_on_completion j = true ->
  triple (mounts_are m) (run_body digest j) (fun _ => ejectable_ok j m) (fun _ => True).
Proof.
  intros He. pose proof (stable_mounts_are m) as HS.
  unfold run_body.
  apply triple_keeps_then; [apply keeps_mounts_modify; reflexivity|]. intros ?.
  apply triple_keeps_then; [apply keeps_walk_sources; try exact HS; intros s Hs; exact Hs|].
  intros d.
  apply triple_keeps_then; [apply keeps_collect_sizes; try exact HS; intros n s Hs; exact Hs|].
  intros files.
  apply triple_keeps_then; [apply keeps_mounts_modify; reflexivity|]. intros ?.
  apply triple_keeps_then; [apply keeps_mounts_file_loop|]. intros ?.
  intros s Hs. rewrite (eject_tail_run j s He).
  unfold mounts_are in Hs. unfold ejectable_ok. simpl. split.
  - apply List.NoDup_filter, List.NoDup_nodup.
  - intros sp. rewrite List.filter_In, List.nodup_In.
    unfold ejectable_in. simpl. rewrite andb_true_iff, existsb_eqb_In, Hs. tauto.
Qed.

Definition job_eject : job :=
  mkJob "Job_1" ["/card"] "xxHash (Fast)" VFull false false true
        [("/card/clip.mov", ["/dest/clip.mov"])].

(** C9 (amended): when ejecting is on and the body of [run] completes
    (no cancellation, no critical error), the report lists each distinct
    job source once, exactly when it is a mount point and every report file
    whose source path starts with that string is 'Verified'. *)
Theorem ejectable_sources_verified_mounts digest j s s' :
  eject_on_completion j = true -> run_body digest j s = (s', Ok tt) ->
  List.NoDup (r_ejectable (st_report s')) /\
  forall sp, In sp (r_ejectable (st_report s')) <->
             In sp (sources j) /\ In sp (st_mounts s)
             /\ fully_verified sp (r_files (st_report s')) = true.
Proof.
  intros He Hrun.
  pose proof (triple_run_body_eject digest j (st_mounts s) He s eq_refl) as H.
  rewrite Hrun in H. exact H.
Qed.

Lemma ejectable_sources_verified_mounts_witness :
  let s := init_state fs_one ["/card"] None in
  let s' := fst (run_body digest_bytes job_eject s) in
  List.NoDup (r_ejectable (st_report s')) /\
  forall sp, In sp (r_ejectable (st_report s')) <->
             In sp (sources job_eject) /\ In sp (st_mounts s)
             /\ fully_verified sp (r_files (st_report s')) = true.
Proof.
  intros s s'.
  apply (ejectable_sources_verified_mounts digest_bytes job_eject s s').
  - reflexivity.
  - vm_compute. reflexivity.
Defined.

(** C9: a source that is not a mount point is never ejectable, even when
    every file under it is 'Verified'. *)
Lemma non_mount_source_not_ejectable :
  let r := finished_report digest_bytes job_eject (init_state fs_one [] None) in
  r_ejectable r = []
  /\ map fi_source (r_files r) = ["/card/clip.mov"]
  /\ map fi_status (r_files r) = [FVerified].
Proof. vm_compute. repeat split; reflexivity. Qed.

(* ------------------------------------------------------------------ *)
(** ** The job queue (job_manager.py) *)

Module JobManager.
Import QArith.
Open Scope Z_scope.

(** A queued job dictionary: ['id'], ['job_type'] (absent means "copy"),
    ['status'], ['report']['total_size'] when present, and the source and
    destination paths it names. *)
Record qjob := mkQJob {
  qj_id : string;
  qj_job_type : option string;
  qj_status : string;
  qj_total_size : option Z;
  qj_paths : list string
}.

(** [job.get("job_type", "copy")] *)
Definition job_type (j : qjob) : string :=
  match qj_job_type j with Some t => t | None => "copy" end.

Definition set_status (st : string) (j : qjob) : qjob :=
  mkQJob (qj_id j) (qj_job_type j) st (qj_total_size j) (qj_paths j).

(** The attributes of [JobManager] used by the queue logic.  A worker is
    represented by the job it runs ([worker.job]); time.monotonic() readings
    are rationals, and the float arithmetic on them is taken exact. *)
Record manager := mkManager {
  job_queue : list qjob;
  completed_jobs : list qjob;
  active_workers : list qjob;
  max_concurrent_jobs : nat;
  is_running : bool;
  is_paused : bool;
  current_queue_had_errors : bool;
  total_queue_size : Z;
  total_bytes_processed_in_queue : Z;
  queue_start_time : Q;
  last_progress_update_time : Q;
  pause_time : Q;
  active_job_progress : gmap string Z;
  speed_history : list (Q * Z)
}.

(** [sum(j['report']['total_size'] for j in copy_jobs if 'report' in j and
    'total_size' in j['report'])] *)
Definition queue_total (q : list qjob) : Z :=
  fold_right (fun j acc =>
                if String.eqb (job_type j) "copy" then
                  match qj_total_size j with Some n => n + acc | None => acc end
                else acc) 0 q.

(** JobManager._start_available_jobs; each iteration pops one job, so
    [fuel] = [len(self.job_queue)] runs the [while] loop to its end. *)
Fixpoint start_available_jobs (fuel : nat) (m : manager) : manager :=
  match fuel with
  | O => m
  | S f =>
    if Nat.ltb (length (active_workers m)) (max_concurrent_jobs m) then
      match job_queue m with
      | [] => m
      | j :: rest =>
        if String.eqb (qj_status j) "Cancelled" then
          start_available_jobs f
            (mkManager rest (completed_jobs m ++ [j]) (active_workers m)
               (max_concurrent_jobs m) (is_running m) (is_paused m)
               (current_queue_had_errors m) (total_queue_size m)
               (total_bytes_processed_in_queue m) (queue_start_time m)
               (last_progress_update_time m) (pause_time m)
               (active_job_progress m) (speed_history m))
        else
          let j' := set_status "Running" j in
          let prog := if String.eqb (job_type j) "mhl_verify" then active_job_progress m
                      else <[qj_id j := 0]> (active_job_progress m) in
          start_available_jobs f
            (mkManager rest (completed_jobs m) (active_workers m ++ [j'])
               (max_concurrent_jobs m) (is_running m) (is_paused m)
               (current_queue_had_errors m) (total_queue_size m)
               (total_bytes_processed_in_queue m) (queue_start_time m)
               (last_progress_update_time m) (pause_time m)
               prog (speed_history m))
      end
    else m
  end.

(** JobManager.start_or_pause_queue at time [now]. *)
Definition start_or_pause_queue (now : Q) (m : manager) : manager :=
  if negb (is_running m) then
    match job_queue m with
    | [] => m
    | _ :: _ =>
      let m1 := mkManager (job_queue m) (completed_jobs m) (active_workers m)
                  (max_concurrent_jobs m) true false false
                  (queue_total (job_queue m)) 0 now now (pause_time m) ∅ [] in
      start_available_jobs (length (job_queue m1)) m1
    end
  else if is_paused m then
    mkManager (job_queue m) (completed_jobs m) (active_workers m)
      (max_concurrent_jobs m) (is_running m) false (current_queue_had_errors m)
      (total_queue_size m) (total_bytes_processed_in_queue m)
      (queue_start_time m + (now - pause_time m))%Q
      (last_progress_update_time m + (now - pause_time m))%Q (pause_time m)
      (active_job_progress m) (speed_history m)
  else
    mkManager (job_queue m) (completed_jobs m) (active_workers m)
      (max_concurrent_jobs m) (is_running m) true (current_queue_had_errors m)
      (total_queue_size m) (total_bytes_processed_in_queue m)
      (queue_start_time m) (last_progress_update_time m) now
      (active_job_progress m) (speed_history m).

Lemma start_available_jobs_frame fuel m :
  let m' := start_available_jobs fuel m in
  is_running m' = is_running m /\ is_paused m' = is_paused m
  /\ total_queue_size m' = total_queue_size m
  /\ total_bytes_processed_in_queue m' = total_bytes_processed_in_queue m
  /\ speed_history m' = speed_history m
  /\ queue_start_time m' = queue_start_time m
  /\ (forall w, In w (active_workers m) -> In w (active_workers m')).
Proof.
  revert m. induction fuel as [|f IH]; intros m; simpl; [repeat split; auto|].
  destruct (Nat.ltb _ _); [|repeat split; auto].
  destruct (job_queue m) as [|j rest]; [repeat split; auto|].
  destruct (String.eqb _ _).
  - destruct (IH (mkManager rest (completed_jobs m ++ [j]) (active_workers m)
               (max_concurrent_jobs m) (is_running m) (is_paused m)
               (current_queue_had_errors m) (total_queue_size m)
               (total_bytes_processed_in_queue m) (queue_start_time m)
               (last_progress_update_time m) (pause_time m)
               (active_job_progress m) (speed_history m)))
      as (H1 & H2 & H3 & H4 & H5 & H6 & H7).
    simpl in *. repeat split; auto.
  - match goal with |- context [start_available_jobs f ?m2] => destruct (IH m2)
      as (H1 & H2 & H3 & H4 & H5 & H6 & H7) end.
    simpl in *. repeat split; auto.
    intros w Hw. apply H7. apply in_or_app. left. exact Hw.
Qed.

(** [job['status'] == 'Cancelled'] *)
Definition is_cancelled (j : qjob) : bool := String.eqb (qj_status j) "Cancelled".

(** The [while] loop of _start_available_jobs run to its end: the jobs it
    pops form a prefix [taken] of the queue; the cancelled ones go to the
    completed list and the others, marked Running, to the active workers;
    each pop happens while a worker slot is free, and the loop stops on an
    empty queue or when no slot is free. *)
Lemma start_available_jobs_pops fuel m :
  (length (job_queue m) <= fuel)%nat ->
  let m' := start_available_jobs fuel m in
  exists taken, job_queue m = taken ++ job_queue m'
    /\ completed_jobs m' = completed_jobs m ++ List.filter is_cancelled taken
    /\ active_workers m' = active_workers m
         ++ map (set_status "Running") (List.filter (fun j => negb (is_cancelled j)) taken)
    /\ (forall p x r, taken = p ++ x :: r ->
          (length (active_workers m)
           + length (List.filter (fun j => negb (is_cancelled j)) p)
           < max_concurrent_jobs m)%nat)
    /\ (job_queue m' = [] \/ (max_concurrent_jobs m <= length (active_workers m'))%nat).
Proof.
  revert m. induction fuel as [|f IH]; intros m Hq; simpl.
  - exists []. rewrite !app_nil_r. split; [reflexivity|]. split; [reflexivity|].
    split; [reflexivity|]. split.
    + intros p x r E. destruct p; discriminate E.
    + left. destruct (job_queue m); [reflexivity|simpl in Hq; lia].
  - destruct (Nat.ltb_spec (length (active_workers m)) (max_concurrent_jobs m)) as [Hlt|Hge].
    2: { exists []. rewrite !app_nil_r. repeat split; auto.
         intros p x r E. destruct p; discriminate E. }
    destruct (job_queue m) as [|j rest] eqn:Eq.
    { exists []. rewrite !app_nil_r. repeat split; auto.
      intros p x r E. destruct p; discriminate E. }
    simpl in Hq.
    assert (Hc : is_cancelled j = String.eqb (qj_status j) "Cancelled") by reflexivity.
    destruct (String.eqb (qj_status j) "Cancelled") eqn:Ec;
      match goal with |- context [start_available_jobs f ?m1] =>
        destruct (IH m1) as (t & H1 & H2 & H3 & H4 & H5); [simpl; lia|];
        set (m' := start_available_jobs f m1) in *
      end; simpl in H1, H2, H3, H4; exists (j :: t);
      (split; [rewrite H1; reflexivity|]);
      cbn [List.filter map]; rewrite Hc; cbn [negb map].
    + split; [rewrite H2, <- List.app_assoc; reflexivity|].
      split; [exact H3|]. split; [|exact H5].
      intros p x r E. destruct p as [|y p]; [simpl; lia|].
      injection E as <- E. specialize (H4 p x r E).
      cbn [List.filter]. rewrite Hc. exact H4.
    + split; [exact H2|].
      split; [rewrite H3, <- List.app_assoc; reflexivity|]. split; [|exact H5].
      intros p x r E. destruct p as [|y p]; [simpl; lia|].
      injection E as <- E. specialize (H4 p x r E).
      cbn [List.filter]. rewrite Hc. simpl. rewrite List.length_app in H4. simpl in H4. lia.
Qed.

Lemma start_available_jobs_errors fuel m :
  current_queue_had_errors (start_available_jobs fuel m) = current_queue_had_errors m.
Proof.
  revert m. induction fuel as [|f IH]; intros m; simpl; [reflexivity|].
  destruct (Nat.ltb _ _); [|reflexivity]. destruct (job_queue m); [reflexivity|].
  destruct (String.eqb _ _); rewrite IH; reflexivity.
Qed.

Definition mgr_missing : manager :=
  mkManager [mkQJob "Job_1" None "Queued" (Some 3) ["/card"; "/dest"]] [] [] 1
            false false false 0 0 0%Q 0%Q 0%Q ∅ [].

(** C4 (amended): starting a stopped queue checks no path.  An empty queue
    is left as it is.  Otherwise the running flag is set, the pause and
    error flags are cleared, the byte counter and the speed history are
    reset, [total_queue_size] becomes the sum of the recorded sizes of the
    copy jobs, and jobs are popped from the head of the queue while a worker
    slot is free: cancelled ones move to the completed list, the others are
    marked Running and started, whatever paths they name.  Popping stops
    when the queue is empty or no slot is free. *)
Theorem start_queue_starts_without_validation now m :
  is_running m = false ->
  (job_queue m = [] -> start_or_pause_queue now m = m)
  /\ (job_queue m <> [] ->
      let m' := start_or_pause_queue now m in
      is_running m' = true /\ is_paused m' = false /\ current_queue_had_errors m' = false
      /\ total_queue_size m' = queue_total (job_queue m)
      /\ total_bytes_processed_in_queue m' = 0
      /\ speed_history m' = [] /\ queue_start_time m' = now
      /\ exists taken, job_queue m = taken ++ job_queue m'
           /\ completed_jobs m' = completed_jobs m ++ List.filter is_cancelled taken
           /\ active_workers m' = active_workers m
                ++ map (set_status "Running") (List.filter (fun j => negb (is_cancelled j)) taken)
           /\ (forall p x r, taken = p ++ x :: r ->
                 (length (active_workers m)
                  + length (List.filter (fun j => negb (is_cancelled j)) p)
                  < max_concurrent_jobs m)%nat)
           /\ (job_queue m' = []
               \/ (max_concurrent_jobs m <= length (active_workers m'))%nat)).
Proof.
  intros Hr. unfold start_or_pause_queue. rewrite Hr. simpl negb. cbv iota.
  split; [intros E; rewrite E; reflexivity|].
  intros Hne. destruct (job_queue m) as [|j rest] eqn:Eq; [contradiction|].
  cbv zeta.
  match goal with |- context [start_available_jobs ?f ?m1] =>
    destruct (start_available_jobs_frame f m1) as (H1 & H2 & H3 & H4 & H5 & H6 & _);
    destruct (start_available_jobs_pops f m1) as (t & P1 & P2 & P3 & P4 & P5); [simpl; lia|];
    assert (Herr : current_queue_had_errors (start_available_jobs f m1) = false)
      by (rewrite start_available_jobs_errors; reflexivity)
  end.
  simpl in H1, H2, H3, H4, H5, H6, P1, P2, P3, P4, P5.
  split; [exact H1|]. split; [exact H2|]. split; [exact Herr|].
  split; [exact H3|]. split; [exact H4|]. split; [exact H5|]. split; [exact H6|].
  exists t. auto.
Qed.

Lemma start_queue_starts_without_validation_witness :
  let m' := start_or_pause_queue 5%Q mgr_missing in
  (job_queue mgr_missing = [] -> start_or_pause_queue 5%Q mgr_missing = mgr_missing)
  /\ (job_queue mgr_missing <> [] ->
      is_running m' = true /\ is_paused m' = false /\ current_queue_had_errors m' = false
      /\ total_queue_size m' = queue_total (job_queue mgr_missing)
      /\ total_bytes_processed_in_queue m' = 0
      /\ speed_history m' = [] /\ queue_start_time m' = 5%Q
      /\ exists taken, job_queue mgr_missing = taken ++ job_queue m'
           /\ completed_jobs m' = completed_jobs mgr_missing ++ List.filter is_cancelled taken
           /\ active_workers m' = active_workers mgr_missing
                ++ map (set_status "Running") (List.filter (fun j => negb (is_cancelled j)) taken)
           /\ (forall p x r, taken = p ++ x :: r ->
                 (length (active_workers mgr_missing)
                  + length (List.filter (fun j => negb (is_cancelled j)) p)
                  < max_concurrent_jobs mgr_missing)%nat)
           /\ (job_queue m' = []
               \/ (max_concurrent_jobs mgr_missing <= length (active_workers m'))%nat)).
Proof. apply (start_queue_starts_without_validation 5%Q mgr_missing). reflexivity. Defined.

(** C4: a queued job whose paths do not exist is started: the queue runs
    and no list of missing paths is produced. *)
Lemma start_queue_with_missing_paths :
  let fs : gmap string fentry := ∅ in
  let m' := start_or_pause_queue 5%Q mgr_missing in
  Forall (fun p => fs !! p = None) ["/card"; "/dest"]
  /\ is_running m' = true
  /\ map qj_id (active_workers m') = ["Job_1"]
  /\ job_queue m' = [].
Proof. vm_compute. repeat split; repeat constructor. Qed.

(** [a < b] on rationals, as a boolean. *)
Definition Qltb (a b : Q) : bool := negb (Qle_bool b a).

(** [self.speed_history.append(x)] on a [deque(maxlen=20)]: a full deque
    drops its leftmost item. *)
Definition deque_append {A} (maxlen : nat) (d : list A) (x : A) : list A :=
  if Nat.ltb (length d) maxlen then d ++ [x] else tl d ++ [x].

(** [while self.speed_history and current_time - self.speed_history[0][0] > 10:
    self.speed_history.popleft()] *)
Fixpoint prune (now : Q) (h : list (Q * Z)) : list (Q * Z) :=
  match h with
  | [] => []
  | (t, b) :: r => if Qltb 10 (now - t) then prune now r else h
  end.

Definition hist_first (h : list (Q * Z)) : Q * Z := hd (0%Q, 0) h.
Definition hist_last (h : list (Q * Z)) : Q * Z := List.last h (0%Q, 0).

(** The rolling average speed, in MiB/s. *)
Definition rolling_speed (h : list (Q * Z)) : Q :=
  if Nat.ltb 1 (length h) then
    let time_delta := (fst (hist_last h) - fst (hist_first h))%Q in
    let byte_delta := snd (hist_last h) - snd (hist_first h) in
    if Qltb (1 # 1000) time_delta then
      (inject_Z byte_delta / time_delta / inject_Z (1024 * 1024))%Q
    else 0%Q
  else 0%Q.

Definition MiB : Q := inject_Z (1024 * 1024).

(** Python floats are IEEE-754 binary64: 53-bit mantissa, exponent of the
    infinities 1024. *)
Definition prec64 : Z := 53.
Definition emax64 : Z := 1024.

(** [a / b] on Python ints: the exact quotient rounded once to the nearest
    binary64 (ties to even). *)
Definition int_truediv (a b : Z) : spec_float :=
  match Z.abs a, Z.abs b with
  | Z0, _ => S754_zero (xorb (a <? 0) (b <? 0))
  | Zpos pa, Zpos pb =>
    let '(mz, ez, lz) := SFdiv_core_binary prec64 emax64 (Zpos pa) 0 (Zpos pb) 0 in
    binary_round_aux prec64 emax64 (xorb (a <? 0) (b <? 0)) mz ez lz
  | _, _ => S754_nan            (* ZeroDivisionError; guarded by the caller *)
  end.

(** [float(n)] of a Python int. *)
Definition float_of_Z (n : Z) : spec_float := binary_normalize prec64 emax64 n 0 false.

(** [int(x)] of a finite float: truncation toward zero. *)
Definition float_trunc (f : spec_float) : Z :=
  match f with
  | S754_finite s m e =>
    let z := if 0 <=? e then Z.shiftl (Zpos m) e else Z.shiftr (Zpos m) (- e) in
    if s then - z else z
  | _ => 0
  end.

(** [int((done / total) * 100)] *)
Definition percent_of (done total : Z) : Z :=
  float_trunc (SFmul prec64 emax64 (int_truediv done total) (float_of_Z 100)).

(** JobManager._on_worker_progress_updated at time [now]; the emitted
    [overall_progress_updated] is (percent, overall_speed_mbps,
    overall_eta_seconds). *)
Definition on_worker_progress_updated (now : Q) (job_id : string)
           (bytes_processed_in_job : Z) (m : manager) : manager * option (Z * Q * Q) :=
  match active_job_progress m !! job_id with
  | None => (m, None)
  | Some prev =>
    let delta := bytes_processed_in_job - prev in
    if delta <=? 0 then (m, None) else
    let total := total_bytes_processed_in_queue m + delta in
    let h := prune now (deque_append 20 (speed_history m) (now, total)) in
    let speed := rolling_speed h in
    let remaining := total_queue_size m - total in
    let eta := if Qltb 0 speed then (inject_Z remaining / (speed * MiB))%Q else (-1)%Q in
    let percent := if 0 <? total_queue_size m then percent_of total (total_queue_size m) else 0 in
    (mkManager (job_queue m) (completed_jobs m) (active_workers m)
       (max_concurrent_jobs m) (is_running m) (is_paused m)
       (current_queue_had_errors m) (total_queue_size m) total
       (queue_start_time m) (last_progress_update_time m) (pause_time m)
       (<[job_id := bytes_processed_in_job]> (active_job_progress m)) h,
     Some (percent, speed, eta))
  end.









(** A mid-run update state: one TransferWorker job whose previous report
    was 0 bytes, of a 1000-byte queue. *)
Definition mgr_progress : manager :=
  mkManager [] [] [mkQJob "Job_1" None "Running" (Some 1000) ["/card"; "/dest"]] 1
            true false false 1000 0 0%Q 0%Q 0%Q (<["Job_1" := 0]> ∅) [].




End JobManager.

(* ------------------------------------------------------------------ *)
(** ** Manifest verification (MHLVerifyWorker) *)

Module MHL.

(** report_data['status'] *)
Inductive mstatus := MCompleted | MCancelled | MFailed | MCompletedWithIssues.

(** file_report['status']: 'Missing' | 'Verified' | 'FAILED'. *)
Inductive entry_status := Missing | Verified | FAILED.

(** A parsed manifest entry: (relative_path, expected_hash, hash_type, size).
    relative_path is the text of the <file> element, None when the element
    is empty. *)
Record entry := mkEntry {
  e_rel : option string;
  e_expected : string;
  e_hash_type : string;
  e_size : Z
}.

(** What the target directory holds at a path for which os.path.exists is
    true; a path absent from the map is one for which it is false. *)
Inductive node :=
  | NFile (data : list Z)   (* a file that open(path, 'rb') reads *)
  | NUnreadable.           (* open(path, 'rb') raises: a directory, or a file without read permission *)

Record file_report := mkFileReport {
  fr_path : string;
  fr_expected : string;
  fr_hash_type : string;
  fr_status : entry_status;
  fr_actual : option string
}.

Record mreport := mkReport {
  mr_files : list file_report;
  mr_status : mstatus;
  mr_errors : list string;
  verified_count : nat;
  failed_count : nat;
  missing_count : nat
}.

Definition empty_mreport : mreport := mkReport [] MCompleted [] 0 0 0.

(** os.path.join(target_dir, relative_path) *)
Definition path_join (a b : string) : string :=
  if String.prefix "/" b then b
  else if String.eqb a EmptyString then b
  else if String.eqb (String.substring (String.length a - 1) 1 a) "/" then a ++ b
  else a ++ "/" ++ b.

(** How the [for] loop ended: run to the end, the early [return] on
    cancellation, or an exception caught by [except Exception]. *)
Inductive loop_end := LoopDone | LoopCancelled | LoopRaised.

(** [self.is_cancelled] at check number [i], when it becomes true from
    check number [cancel_at] on. *)
Definition cancelled_at (cancel_at : option nat) (i : nat) : bool :=
  match cancel_at with Some k => Nat.leb k i | None => false end.

Section Verify.
Variable digest : hash_alg -> list Z -> string.

Definition MHL_CHUNK_SIZE : Z := 8 * 1024 * 1024.

(** MHLVerifyWorker._calculate_hash on the contents [data]. *)
Definition mhl_hash (data : list Z) (method : string) : string :=
  digest (if String.eqb method "xxhash64" then XXH64 else MD5)
         (hash_loop MHL_CHUNK_SIZE (S (length data)) data 0 []).

(** One iteration of the [for] loop after the cancellation check; [None]
    when it raises: os.path.join(target_dir, None) raises TypeError, and
    _calculate_hash raises when the existing path cannot be opened. *)
Definition verify_entry (tree : gmap string node) (target_dir : string)
           (e : entry) (r : mreport) : option mreport :=
  match e_rel e with
  | None => None
  | Some relative_path =>
    let full_path := path_join target_dir relative_path in
    match tree !! full_path with
    | None =>
      Some (mkReport (mr_files r ++ [mkFileReport full_path (e_expected e) (e_hash_type e) Missing None])
                     (mr_status r) (mr_errors r) (verified_count r) (failed_count r) (S (missing_count r)))
    | Some NUnreadable => None
    | Some (NFile data) =>
      let actual := mhl_hash data (e_hash_type e) in
      if String.eqb actual (e_expected e) then
        Some (mkReport (mr_files r ++ [mkFileReport full_path (e_expected e) (e_hash_type e) Verified None])
                       (mr_status r) (mr_errors r) (S (verified_count r)) (failed_count r) (missing_count r))
      else
        Some (mkReport (mr_files r ++ [mkFileReport full_path (e_expected e) (e_hash_type e) FAILED (Some actual)])
                       (mr_status r) (mr_errors r) (verified_count r) (S (failed_count r)) (missing_count r))
    end
  end.

(** The [for] loop; [i] counts the cancellation checks made.  On an
    exception the report is left as the entries before it made it. *)
Fixpoint verify_loop (tree : gmap string node) (target_dir : string)
         (cancel_at : option nat) (i : nat) (es : list entry) (r : mreport)
  : mreport * loop_end :=
  match es with
  | [] => (r, LoopDone)
  | e :: rest =>
    if cancelled_at cancel_at i then
      (mkReport (mr_files r) MCancelled (mr_errors r) (verified_count r)
                (failed_count r) (missing_count r), LoopCancelled)
    else
      match verify_entry tree target_dir e r with
      | Some r' => verify_loop tree target_dir cancel_at (S i) rest r'
      | None => (r, LoopRaised)
      end
  end.

(** [if failed_count > 0 or missing_count > 0: status = 'Completed with issues'] *)
Definition final_status (r : mreport) : mreport :=
  if Nat.ltb 0 (failed_count r) || Nat.ltb 0 (missing_count r) then
    mkReport (mr_files r) MCompletedWithIssues (mr_errors r) (verified_count r)
             (failed_count r) (missing_count r)
  else r.

(** The [except Exception] handler: status 'Failed' and one more error. *)
Definition critical_error (r : mreport) : mreport :=
  mkReport (mr_files r) MFailed (mr_errors r ++ ["A critical error occurred"])
           (verified_count r) (failed_count r) (missing_count r).

(** MHLVerifyWorker.run: the emitted report.  [parsed] is the result of
    _parse_mhl, [None] when it raises. *)
Definition mhl_run (tree : gmap string node) (target_dir : string)
           (parsed : option (list entry)) (cancel_at : option nat) : mreport :=
  match parsed with
  | None => final_status (critical_error empty_mreport)
  | Some es =>
    match verify_loop tree target_dir cancel_at 0 es empty_mreport with
    | (r, LoopCancelled) => r
    | (r, LoopDone) => final_status r
    | (r, LoopRaised) => final_status (critical_error r)
    end
  end.

(** The file report the loop appends for an entry, by what the target
    directory holds; [None] when the entry raises. *)
Definition entry_report (tree : gmap string node) (target_dir : string) (e : entry)
  : option file_report :=
  match e_rel e with
  | None => None
  | Some relative_path =>
    let full_path := path_join target_dir relative_path in
    match tree !! full_path with
    | None => Some (mkFileReport full_path (e_expected e) (e_hash_type e) Missing None)
    | Some NUnreadable => None
    | Some (NFile data) =>
      let actual := mhl_hash data (e_hash_type e) in
      if String.eqb actual (e_expected e)
      then Some (mkFileReport full_path (e_expected e) (e_hash_type e) Verified None)
      else Some (mkFileReport full_path (e_expected e) (e_hash_type e) FAILED (Some actual))
    end
  end.

Definition count_status (st : entry_status) (l : list entry_status) : nat :=
  length (List.filter (fun x => match st, x with
                                | Missing, Missing | Verified, Verified | FAILED, FAILED => true
                                | _, _ => false
                                end) l).

Definition is_st (st x : entry_status) : nat :=
  match st, x with
  | Missing, Missing | Verified, Verified | FAILED, FAILED => 1
  | _, _ => 0
  end.

Lemma count_status_app st l1 l2 :
  count_status st (l1 ++ l2) = (count_status st l1 + count_status st l2)%nat.
Proof. unfold count_status. rewrite List.filter_app, List.length_app. reflexivity. Qed.

Lemma count_status_one st x : count_status st [x] = is_st st x.
Proof. destruct st, x; reflexivity. Qed.

(** [r'] is [r] with the reports [frs] appended and counted. *)
Definition extends (r r' : mreport) (frs : list file_report) : Prop :=
  mr_files r' = mr_files r ++ frs
  /\ verified_count r' = (verified_count r + count_status Verified (map fr_status frs))%nat
  /\ failed_count r' = (failed_count r + count_status FAILED (map fr_status frs))%nat
  /\ missing_count r' = (missing_count r + count_status Missing (map fr_status frs))%nat
  /\ mr_status r' = mr_status r
  /\ mr_errors r' = mr_errors r.

Lemma extends_nil r : extends r r [].
Proof. unfold extends, count_status. simpl. rewrite app_nil_r. repeat split; lia. Qed.

Lemma extends_trans r1 r2 r3 l1 l2 :
  extends r1 r2 l1 -> extends r2 r3 l2 -> extends r1 r3 (l1 ++ l2).
Proof.
  intros (A1 & B1 & C1 & D1 & E1 & F1) (A2 & B2 & C2 & D2 & E2 & F2).
  unfold extends. rewrite List.map_app, !count_status_app.
  rewrite A2, A1, List.app_assoc. repeat split; congruence || lia.
Qed.

Lemma verify_entry_step tree target_dir e r :
  match verify_entry tree target_dir e r, entry_report tree target_dir e with
  | None, None => True
  | Some r', Some fr => extends r r' [fr]
  | _, _ => False
  end.
Proof.
  unfold verify_entry, entry_report, extends.
  destruct (e_rel e) as [rel|]; [|exact I].
  destruct (tree !! path_join target_dir rel) as [[data|]|]; [| exact I |].
  - destruct (String.eqb (mhl_hash data (e_hash_type e)) (e_expected e));
      unfold count_status; simpl; repeat split; lia.
  - unfold count_status; simpl. repeat split; lia.
Qed.

Lemma verify_entry_some tree target_dir e r fr :
  entry_report tree target_dir e = Some fr ->
  exists r', verify_entry tree target_dir e r = Some r' /\ extends r r' [fr].
Proof.
  intros H. pose proof (verify_entry_step tree target_dir e r) as S. rewrite H in S.
  destruct (verify_entry tree target_dir e r) as [r'|]; [|contradiction]. eauto.
Qed.

Lemma verify_entry_none tree target_dir e r :
  entry_report tree target_dir e = None -> verify_entry tree target_dir e r = None.
Proof.
  intros H. pose proof (verify_entry_step tree target_dir e r) as S. rewrite H in S.
  destruct (verify_entry tree target_dir e r); [contradiction | reflexivity].
Qed.

(** Entries that do not raise, met while no cancellation is seen, are
    appended and counted one by one. *)
Lemma verify_loop_prefix tree target_dir cancel_at i pre rest r frs :
  map (entry_report tree target_dir) pre = map Some frs ->
  (forall j, (i <= j < i + length pre)%nat -> cancelled_at cancel_at j = false) ->
  exists r', verify_loop tree target_dir cancel_at i (pre ++ rest) r
             = verify_loop tree target_dir cancel_at (i + length pre) rest r'
          /\ extends r r' frs.
Proof.
  revert i r frs. induction pre as [|e pre IH]; intros i r frs Hm Hc.
  - destruct frs; [|discriminate Hm]. exists r. rewrite Nat.add_0_r.
    split; [reflexivity | apply extends_nil].
  - destruct frs as [|fr frs]; [discriminate Hm|]. injection Hm as He Hm.
    simpl. rewrite (Hc i) by (simpl; lia).
    destruct (verify_entry_some tree target_dir e r fr He) as (r1 & Hv & Hx). rewrite Hv.
    destruct (IH (S i) r1 frs Hm) as (r' & Hl & Hx').
    { intros j Hj. apply Hc. simpl. lia. }
    exists r'. rewrite Hl. replace (S i + length pre)%nat with (i + S (length pre))%nat by lia.
    split; [reflexivity|]. apply (extends_trans _ _ _ [fr] frs Hx Hx').
Qed.

Lemma no_cancel_below k j : (j < k)%nat -> cancelled_at (Some k) j = false.
Proof. intros H. simpl. apply Nat.leb_gt. exact H. Qed.

End Verify.

(** C6 (amended): for a manifest that parses and a job that is not
    cancelled, the entries are processed in order, and the report appended
    for each is [entry_report]: Missing when its joined path does not
    exist, else Verified or FAILED (with the actual hash) by comparing the
    re-computed digest with the expected one.  An entry whose path is
    None, or whose joined path exists but cannot be opened for reading,
    raises: the report keeps the entries before it and one error, and its
    status is 'Failed' unless those give failed + missing > 0.  When no
    entry raises, the counts are the numbers of each class and the status
    is 'Completed with issues' exactly when failed + missing is positive,
    'Completed' otherwise.  A job cancelled at an entry boundary that the
    loop reaches ends 'Cancelled'. *)
Theorem mhl_classification_and_status digest tree target_dir es :
  let r := mhl_run digest tree target_dir (Some es) None in
  (forall frs,
     map (entry_report digest tree target_dir) es = map Some frs ->
     mr_files r = frs
     /\ verified_count r = count_status Verified (map fr_status frs)
     /\ failed_count r = count_status FAILED (map fr_status frs)
     /\ missing_count r = count_status Missing (map fr_status frs)
     /\ mr_errors r = []
     /\ (mr_status r = MCompletedWithIssues <-> (0 < failed_count r + missing_count r)%nat)
     /\ (mr_status r = MCompleted <-> (failed_count r + missing_count r = 0)%nat))
  /\ (forall pre e post frs,
     es = pre ++ e :: post ->
     map (entry_report digest tree target_dir) pre = map Some frs ->
     entry_report digest tree target_dir e = None ->
     mr_files r = frs
     /\ verified_count r = count_status Verified (map fr_status frs)
     /\ failed_count r = count_status FAILED (map fr_status frs)
     /\ missing_count r = count_status Missing (map fr_status frs)
     /\ mr_errors r = ["A critical error occurred"]
     /\ (mr_status r = MCompletedWithIssues <-> (0 < failed_count r + missing_count r)%nat)
     /\ (mr_status r = MFailed <-> (failed_count r + missing_count r = 0)%nat))
  /\ (forall k frs,
     (k < length es)%nat ->
     map (entry_report digest tree target_dir) (firstn k es) = map Some frs ->
     mr_status (mhl_run digest tree target_dir (Some es) (Some k)) = MCancelled).
Proof.
  intros r. split; [|split].
  - intros frs Hm.
    destruct (verify_loop_prefix digest tree target_dir None 0 es [] empty_mreport frs Hm)
      as (r' & Hl & A & B & C & D & E & F); [reflexivity|].
    rewrite app_nil_r in Hl. simpl in A, B, C, D, E, F.
    unfold r, mhl_run. rewrite Hl. simpl. unfold final_status.
    destruct (Nat.ltb_spec 0 (failed_count r')), (Nat.ltb_spec 0 (missing_count r')); simpl;
      repeat split; try assumption; try lia; try congruence;
      rewrite E; intros X; discriminate X.
  - intros pre e post frs -> Hm He.
    destruct (verify_loop_prefix digest tree target_dir None 0 pre (e :: post) empty_mreport frs Hm)
      as (r' & Hl & A & B & C & D & E & F); [reflexivity|].
    simpl in A, B, C, D, E, F.
    unfold r, mhl_run. rewrite Hl. simpl. rewrite (verify_entry_none _ _ _ _ _ He).
    unfold final_status, critical_error. simpl. rewrite F.
    destruct (Nat.ltb_spec 0 (failed_count r')), (Nat.ltb_spec 0 (missing_count r')); simpl;
      repeat split; try assumption; try lia; try congruence; intros X; discriminate X.
  - intros k frs Hk Hm.
    pose proof Hk as Hk0.
    rewrite <- (firstn_skipn k es). rewrite <- (firstn_skipn k es) in Hk.
    destruct (skipn k es) as [|e post] eqn:Hs.
    { rewrite app_nil_r in Hk. pose proof (firstn_le_length k es). lia. }
    destruct (verify_loop_prefix digest tree target_dir (Some k) 0 (firstn k es) (e :: post)
                empty_mreport frs Hm) as (r' & Hl & _).
    { intros j Hj. apply no_cancel_below. pose proof (firstn_le_length k es). lia. }
    unfold mhl_run. rewrite Hl. simpl.
    rewrite length_firstn. replace (Nat.min k (length es)) with k by lia.
    rewrite Nat.leb_refl. reflexivity.
Qed.

Definition tree_3 : gmap string node :=
  <["/t/a.mov" := NFile [97]]> (<["/t/c.mov" := NFile [99]]> ∅).

(** A three-entry manifest whose second file was deleted. *)
Definition entries_3 : list entry :=
  [mkEntry (Some "a.mov") "xa" "xxhash64" 1; mkEntry (Some "b.mov") "xb" "xxhash64" 1;
   mkEntry (Some "c.mov") "xc" "xxhash64" 1].

Definition tree_dir : gmap string node :=
  <["/t/a.mov" := NFile [97]]> (<["/t/sub" := NUnreadable]> ∅).

(** A manifest whose second entry names a directory. *)
Definition entries_dir : list entry :=
  [mkEntry (Some "a.mov") "xa" "xxhash64" 1; mkEntry (Some "sub") "xs" "xxhash64" 1;
   mkEntry (Some "c.mov") "xc" "xxhash64" 1].

Lemma mhl_classification_and_status_witness :
  (let r := mhl_run digest_bytes tree_3 "/t" (Some entries_3) None in
   missing_count r = 1%nat /\ verified_count r = 2%nat /\ mr_status r = MCompletedWithIssues)
  /\ (let r := mhl_run digest_bytes tree_dir "/t" (Some entries_dir) None in
      mr_files r = [mkFileReport "/t/a.mov" "xa" "xxhash64" Verified None]
      /\ (mr_status r = MFailed <-> (failed_count r + missing_count r = 0)%nat))
  /\ mr_status (mhl_run digest_bytes tree_3 "/t" (Some entries_3) (Some 2%nat)) = MCancelled.
Proof.
  destruct (mhl_classification_and_status digest_bytes tree_3 "/t" entries_3) as (A & _ & Cn).
  destruct (mhl_classification_and_status digest_bytes tree_dir "/t" entries_dir) as (_ & B & _).
  split; [|split].
  - destruct (A [mkFileReport "/t/a.mov" "xa" "xxhash64" Verified None;
                 mkFileReport "/t/b.mov" "xb" "xxhash64" Missing None;
                 mkFileReport "/t/c.mov" "xc" "xxhash64" Verified None])
      as (_ & Hv & _ & Hm & _ & Hs & _); [vm_compute; reflexivity|].
    split; [rewrite Hm; reflexivity|]. split; [rewrite Hv; reflexivity|].
    apply Hs. vm_compute. lia.
  - destruct (B [mkEntry (Some "a.mov") "xa" "xxhash64" 1]
                (mkEntry (Some "sub") "xs" "xxhash64" 1)
                [mkEntry (Some "c.mov") "xc" "xxhash64" 1]
                [mkFileReport "/t/a.mov" "xa" "xxhash64" Verified None])
      as (Hf & _ & _ & _ & _ & _ & Hs); [reflexivity | vm_compute; reflexivity
                                          | vm_compute; reflexivity |].
    split; [exact Hf | exact Hs].
  - apply (Cn 2%nat [mkFileReport "/t/a.mov" "xa" "xxhash64" Verified None;
                     mkFileReport "/t/b.mov" "xb" "xxhash64" Missing None]);
      [simpl; lia | vm_compute; reflexivity].
Defined.

Definition fs_mhl : gmap string node := <["/t/b.mov" := NFile [1; 2]]> ∅.

Definition entries_mhl : list entry :=
  [mkEntry (Some "a.mov") "00" "xxhash64" 3; mkEntry (Some "b.mov") "11" "xxhash64" 2].

(** C6: a cancellation after an entry was found missing ends the job
    'Cancelled', with a positive missing count. *)
Lemma mhl_cancel_after_missing_entry :
  let r := mhl_run digest_bytes fs_mhl "/t" (Some entries_mhl) (Some 1%nat) in
  missing_count r = 1%nat /\ mr_status r = MCancelled.
Proof. vm_compute. split; reflexivity. Qed.

End MHL.

(* ------------------------------------------------------------------ *)
(** ** Further properties of the transfer engine *)

Lemma hash_loop_absorbs n fuel data pos acc :
  0 < n -> 0 <= pos -> (length (dropZ pos data) < fuel)%nat ->
  hash_loop n fuel data pos acc = acc ++ dropZ pos data.
Proof.
  revert pos acc. induction fuel as [|f IH]; intros pos acc Hn Hpos Hf; [lia|].
  simpl. unfold read_chunk.
  destruct (dropZ pos data) as [|x r] eqn:Er.
  - rewrite app_nil_r. reflexivity.
  - assert (Hbuf : takeZ n (x :: r) <> []) by (apply takeZ_nonempty; [lia|discriminate]).
    destruct (takeZ n (x :: r)) as [|y t] eqn:Et; [contradiction|].
    rewrite IH.
    + rewrite <- dropZ_dropZ by (pose proof (zlen_nonneg (y :: t)); lia).
      rewrite Er, <- Et, dropZ_zlen_takeZ by lia.
      rewrite <- app_assoc. f_equal. apply takeZ_dropZ.
    + exact Hn.
    + pose proof (zlen_nonneg (y :: t)); lia.
    + rewrite <- dropZ_dropZ by (pose proof (zlen_nonneg (y :: t)); lia).
      rewrite Er, <- Et, dropZ_zlen_takeZ by lia.
      simpl in Hf. apply (Nat.lt_le_trans _ (length (x :: r))); [|simpl; lia].
      apply length_dropZ_lt; [lia|discriminate].
Qed.

Lemma hash_loop_whole n data :
  0 < n -> hash_loop n (S (length data)) data 0 [] = data.
Proof.
  intros Hn. rewrite hash_loop_absorbs by (try rewrite dropZ_0; lia).
  rewrite dropZ_0. reflexivity.
Qed.

(* ------------------------------------------------------------------ *)
(** ** The opens of one Full-mode file (C2) *)

Lemma count_reads_app p l1 l2 :
  count_reads p (l1 ++ l2) = (count_reads p l1 + count_reads p l2)%nat.
Proof. unfold count_reads. rewrite List.filter_app, List.length_app. reflexivity. Qed.

Lemma count_writes_app l1 l2 :
  count_writes (l1 ++ l2) = (count_writes l1 + count_writes l2)%nat.
Proof. unfold count_writes. rewrite List.filter_app, List.length_app. reflexivity. Qed.

(** Reading off a successful run: each lemma inverts one primitive. *)
Lemma bind_ok {A B} (m : M A) (f : A -> M B) s s' b :
  bind m f s = (s', Ok b) -> exists s1 a, m s = (s1, Ok a) /\ f a s1 = (s', Ok b).
Proof.
  unfold bind. destruct (m s) as [s1 [a| e |]]; intros H; [eauto|discriminate|discriminate].
Qed.

Lemma ret_ok {A} (a b : A) s s' : ret a s = (s', Ok b) -> s' = s /\ b = a.
Proof. unfold ret. intros H. injection H as <- <-. auto. Qed.

Lemma exists_ok p s s' b : os_path_exists p s = (s', Ok b) -> s' = s.
Proof. unfold os_path_exists, gets. intros H. injection H as <- _. reflexivity. Qed.

Lemma getsize_ok p s s' n : os_path_getsize p s = (s', Ok n) -> s' = s.
Proof.
  unfold os_path_getsize. destruct (st_fs s !! p) as [[d|]|]; intros H;
    [injection H as <- _; reflexivity|discriminate|discriminate].
Qed.

Lemma open_read_ok p s s' d :
  open_read p s = (s', Ok d) ->
  st_fs s !! p = Some (Reg d) /\ st_log s' = st_log s ++ [EOpen p ModeRB]
  /\ st_file s' = st_file s.
Proof.
  unfold open_read. destruct (st_fs s !! p) as [[d'|]|]; intros H;
    [injection H as <- <-; auto|discriminate|discriminate].
Qed.

Lemma open_write_ok p m s s' u :
  open_write p m s = (s', Ok u) ->
  st_log s' = st_log s ++ [EOpen p m] /\ st_file s' = st_file s.
Proof.
  unfold open_write. destruct (st_fs s !! p) as [[d|]|]; intros H;
    try discriminate H; injection H as <- _; auto.
Qed.

Lemma upd_file_ok f s s' u : upd_file f s = (s', Ok u) -> s' = set_file (f (st_file s)) s.
Proof. unfold upd_file, modify. intros H. injection H as <- _. reflexivity. Qed.

Lemma add_error_ok e s s' u :
  add_error e s = (s', Ok u) -> st_log s' = st_log s /\ st_file s' = st_file s.
Proof. unfold add_error, upd_report, modify. intros H. injection H as <- _. auto. Qed.

Lemma copy_loop_frame fuel dst data pos s s' o :
  copy_loop fuel dst data pos s = (s', o) -> st_log s' = st_log s /\ st_file s' = st_file s.
Proof.
  revert pos s. induction fuel as [|f IH]; intros pos s; simpl.
  - unfold ret. intros H. injection H as <- _. auto.
  - unfold bind at 1, observe_cancel.
    destruct (match st_cancel_at s with Some k => Nat.leb k (st_obs s) | None => false end).
    + unfold raise. intros H. injection H as <- _. auto.
    + destruct (read_chunk data pos CHUNK_SIZE).
      * unfold ret. intros H. injection H as <- _. auto.
      * unfold bind, write_chunk, modify. intros H. apply IH in H. destruct H as [H1 H2].
        rewrite H1, H2. auto.
Qed.

(** A successful copy opens the source for reading, then the destination
    (for writing or appending), and nothing else. *)
Lemma copy_file_ok j src dst s s' u :
  copy_file_with_progress j src dst s = (s', Ok u) ->
  exists m, m <> ModeRB /\ st_log s' = st_log s ++ [EOpen src ModeRB; EOpen dst m]
            /\ st_file s' = st_file s.
Proof.
  unfold copy_file_with_progress. intros H.
  apply bind_ok in H as (s1 & n & H1 & H). apply getsize_ok in H1. subst s1.
  apply bind_ok in H as (s2 & mp & H2 & H).
  assert (Hs2 : s2 = s /\ fst mp <> ModeRB).
  { destruct (resume_partial j).
    - apply bind_ok in H2 as (s3 & e & H3 & H2). apply exists_ok in H3. subst s3.
      destruct e.
      + apply bind_ok in H2 as (s4 & ds & H4 & H2). apply getsize_ok in H4. subst s4.
        apply ret_ok in H2 as [-> ->].
        split; [reflexivity|]. destruct ((0 <? ds) && (ds <? n)); discriminate.
      + apply ret_ok in H2 as [-> ->]. split; [reflexivity| discriminate].
    - apply ret_ok in H2 as [-> ->]. split; [reflexivity| discriminate]. }
  destruct Hs2 as [-> Hm].
  apply bind_ok in H as (s3 & d & H3 & H). apply open_read_ok in H3 as (_ & L3 & F3).
  apply bind_ok in H as (s4 & w & H4 & H). apply open_write_ok in H4 as [L4 F4].
  rewrite bind_gets in H. apply copy_loop_frame in H as [L5 F5].
  exists (fst mp). split; [exact Hm|].
  rewrite L5, L4, L3, F5, F4, F3, <- List.app_assoc. auto.
Qed.

Lemma calculate_hash_ok digest p meth s s' h :
  calculate_hash digest p meth s = (s', Ok h) ->
  exists d, st_fs s !! p = Some (Reg d)
    /\ h = digest (if String.eqb meth "xxHash (Fast)" then XXH64 else MD5) d
    /\ st_log s' = st_log s ++ [EOpen p ModeRB] /\ st_file s' = st_file s.
Proof.
  unfold calculate_hash. intros H.
  apply bind_ok in H as (s1 & d & H1 & H). apply open_read_ok in H1 as (Hd & L1 & F1).
  apply ret_ok in H as [-> ->]. exists d.
  rewrite hash_loop_whole by (unfold CHUNK_SIZE; lia). auto.
Qed.

Lemma lookup_dests_ok j src s s' ds :
  lookup_dests j src s = (s', Ok ds) -> s' = s /\ In (src, ds) (resolved_dests j).
Proof.
  unfold lookup_dests.
  destruct (find (fun kv => String.eqb (fst kv) src) (resolved_dests j)) as [[k ds']|] eqn:Ef;
    [|discriminate].
  intros H. apply ret_ok in H as [-> ->]. split; [reflexivity|].
  pose proof (find_some _ _ Ef) as [Hin Heq]. simpl in Heq.
  apply String.eqb_eq in Heq. subst k. exact Hin.
Qed.

(** The opens made for one destination of a Full-mode file, read off its
    destination record [d]: the copy, when the destination was not skipped
    ([copy] is then the mode of the write open), opens the source and then
    that destination only; the destination is re-hashed (opened for reading)
    when it exists with the source's size, i.e. when its record is verified
    (no status) or says "Verification FAILED". *)
Definition full_dest_opens (src : string) (d : dest_info) (copy : option open_mode)
  : list io_event :=
  match copy with
  | Some m => [EOpen src ModeRB; EOpen (d_path d) m]
  | None => []
  end
  ++ match d_status d with
     | None | Some DVerifyFailed => [EOpen (d_path d) ModeRB]
     | _ => []
     end.

Definition full_opens (src : string) (recs : list dest_info) (copies : list (option open_mode))
  : list io_event :=
  concat (map (fun dc => full_dest_opens src (fst dc) (snd dc)) (combine recs copies)).

(** What a successful Full-mode destination loop did, from [s] to [s']. *)
Definition dest_loop_done (j : job) (src : string) (dests : list string) (s s' : state)
           (recs : list dest_info) (copies : list (option open_mode)) : Prop :=
  fi_dests (st_file s') = fi_dests (st_file s) ++ recs
  /\ fi_checksum (st_file s') = fi_checksum (st_file s)
  /\ map d_path recs = dests
  /\ length copies = length recs
  /\ (forall m, In (Some m) copies -> m <> ModeRB)
  /\ (skip_existing j = false -> ~ In None copies)
  /\ st_log s' = st_log s ++ full_opens src recs copies.

Lemma dest_loop_done_cons j src dst rest s s1 s2 s' recs copies d c :
  st_log s1 = st_log s ++ full_dest_opens src d c -> st_file s1 = st_file s ->
  st_log s2 = st_log s1 ->
  fi_dests (st_file s2) = fi_dests (st_file s1) ++ [d] ->
  fi_checksum (st_file s2) = fi_checksum (st_file s1) ->
  d_path d = dst -> (forall m, c = Some m -> m <> ModeRB) ->
  (skip_existing j = false -> c <> None) ->
  dest_loop_done j src rest s2 s' recs copies ->
  dest_loop_done j src (dst :: rest) s s' (d :: recs) (c :: copies).
Proof.
  intros L1 F1 L2 D2 C2 Hp Hc Hsk (D & C & P & N & M & K & L).
  split; [|split; [|split; [|split; [|split; [|split]]]]].
  - rewrite D, D2, F1, <- List.app_assoc. reflexivity.
  - rewrite C, C2, F1. reflexivity.
  - simpl. rewrite P, Hp. reflexivity.
  - simpl. rewrite N. reflexivity.
  - intros m [E|E]; [apply Hc; exact E| apply M; exact E].
  - intros Hs [E|E]; [exact (Hsk Hs E)| exact (K Hs E)].
  - rewrite L, L2, L1. unfold full_opens. simpl. rewrite List.app_assoc. reflexivity.
Qed.

Section FullOpens.
Variable digest : hash_alg -> list Z -> string.

Lemma add_dest_then_loop_ok j src sh size rest va d s1 s' b :
  (forall va s s' b, dest_loop digest j src sh size rest va s = (s', Ok b) ->
     exists recs copies, dest_loop_done j src rest s s' recs copies) ->
  (add_dest d ;;; dest_loop digest j src sh size rest va) s1 = (s', Ok b) ->
  exists s2 recs copies,
    st_log s2 = st_log s1 /\ fi_dests (st_file s2) = fi_dests (st_file s1) ++ [d]
    /\ fi_checksum (st_file s2) = fi_checksum (st_file s1)
    /\ dest_loop_done j src rest s2 s' recs copies.
Proof.
  intros IH H. apply bind_ok in H as (s2 & u & H2 & H).
  unfold add_dest in H2. apply upd_file_ok in H2. subst s2.
  destruct (IH _ _ _ _ H) as (recs & copies & Hd).
  exists (set_file (fi_set_dests (fi_dests (st_file s1) ++ [d]) (st_file s1)) s1), recs, copies.
  auto.
Qed.

Lemma dest_loop_full_ok j src sh size dests :
  verification_mode j = VFull ->
  forall va s s' b, dest_loop digest j src sh size dests va s = (s', Ok b) ->
  exists recs copies, dest_loop_done j src dests s s' recs copies.
Proof.
  intros Hm. induction dests as [|dst rest IH]; intros va s s' b H; simpl in H.
  - apply ret_ok in H as [-> _]. exists [], [].
    unfold dest_loop_done, full_opens. simpl. rewrite !app_nil_r.
    repeat split; auto; intros m [].
  - apply bind_ok in H as (s1 & sk & H1 & H).
    assert (Hs1 : s1 = s /\ (sk = true -> skip_existing j = true)).
    { destruct (skip_existing j).
      - apply bind_ok in H1 as (s2 & e & H2 & H1). apply exists_ok in H2. subst s2.
        destruct e.
        + apply bind_ok in H1 as (s3 & ds & H3 & H1). apply getsize_ok in H3. subst s3.
          apply ret_ok in H1 as [-> _]. auto.
        + apply ret_ok in H1 as [-> ->]. split; [reflexivity| discriminate].
      - apply ret_ok in H1 as [-> ->]. split; [reflexivity| discriminate]. }
    destruct Hs1 as [-> Hsk].
    apply bind_ok in H as (s2 & u & H2 & H).
    assert (Hc : exists c, st_log s2 = st_log s ++ match c with
                                                   | Some m => [EOpen src ModeRB; EOpen dst m]
                                                   | None => []
                                                   end
                           /\ st_file s2 = st_file s
                           /\ (forall m, c = Some m -> m <> ModeRB)
                           /\ (skip_existing j = false -> c <> None)).
    { destruct sk; simpl in H2.
      - apply ret_ok in H2 as [-> _]. exists None. rewrite app_nil_r.
        split; [reflexivity|]. split; [reflexivity|]. split; [discriminate|].
        intros E. rewrite (Hsk eq_refl) in E. discriminate.
      - apply copy_file_ok in H2 as (m & Hm' & L & F). exists (Some m).
        split; [exact L|]. split; [exact F|]. split; [|discriminate].
        intros m' E. injection E as <-. exact Hm'. }
    destruct Hc as (c & L2 & F2 & Hcm & Hcs).
    rewrite Hm in H.
    apply bind_ok in H as (s3 & e & H3 & H). apply exists_ok in H3. subst s3.
    destruct e; simpl in H.
    + apply bind_ok in H as (s3 & ds & H3 & H). apply getsize_ok in H3. subst s3.
      destruct (size =? ds); simpl in H.
      * apply bind_ok in H as (s3 & h & H3 & H).
        apply calculate_hash_ok in H3 as (dd & _ & _ & L3 & F3).
        destruct (opt_eqb sh (Some h)).
        -- destruct (add_dest_then_loop_ok _ _ _ _ _ _ _ _ _ _ IH H)
             as (s4 & recs & copies & L4 & D4 & C4 & Hd).
           exists (mkDest dst true None :: recs), (c :: copies).
           apply (dest_loop_done_cons j src dst rest s s3 s4 s' recs copies _ c);
             try assumption; try reflexivity.
           ++ rewrite L3, L2, <- List.app_assoc. unfold full_dest_opens. reflexivity.
           ++ rewrite F3, F2. reflexivity.
        -- apply bind_ok in H as (s4 & u4 & H4 & H). apply add_error_ok in H4 as [L4 F4].
           destruct (add_dest_then_loop_ok _ _ _ _ _ _ _ _ _ _ IH H)
             as (s5 & recs & copies & L5 & D5 & C5 & Hd).
           exists (mkDest dst false (Some DVerifyFailed) :: recs), (c :: copies).
           apply (dest_loop_done_cons j src dst rest s s4 s5 s' recs copies _ c);
             try assumption; try reflexivity.
           ++ rewrite L4, L3, L2, <- List.app_assoc. unfold full_dest_opens. reflexivity.
           ++ rewrite F4, F3, F2. reflexivity.
      * apply bind_ok in H as (s3 & u3 & H3 & H). apply add_error_ok in H3 as [L3 F3].
        destruct (add_dest_then_loop_ok _ _ _ _ _ _ _ _ _ _ IH H)
          as (s4 & recs & copies & L4 & D4 & C4 & Hd).
        exists (mkDest dst false (Some DSizeMismatch) :: recs), (c :: copies).
        apply (dest_loop_done_cons j src dst rest s s3 s4 s' recs copies _ c);
          try assumption; try reflexivity.
        -- rewrite L3, L2. unfold full_dest_opens. rewrite app_nil_r. reflexivity.
        -- rewrite F3, F2. reflexivity.
    + apply bind_ok in H as (s3 & u3 & H3 & H). apply add_error_ok in H3 as [L3 F3].
      destruct (add_dest_then_loop_ok _ _ _ _ _ _ _ _ _ _ IH H)
        as (s4 & recs & copies & L4 & D4 & C4 & Hd).
      exists (mkDest dst false (Some DMissing) :: recs), (c :: copies).
      apply (dest_loop_done_cons j src dst rest s s3 s4 s' recs copies _ c);
        try assumption; try reflexivity.
      * rewrite L3, L2. unfold full_dest_opens. rewrite app_nil_r. reflexivity.
      * rewrite F3, F2. reflexivity.
Qed.

End FullOpens.

Lemma full_opens_balance src recs copies :
  (forall d, In d recs -> d_path d <> src) ->
  (forall m, In (Some m) copies -> m <> ModeRB) ->
  count_reads src (full_opens src recs copies) = count_writes (full_opens src recs copies).
Proof.
  unfold full_opens. revert copies.
  induction recs as [|d r IH]; intros copies Hn Hw; [reflexivity|].
  destruct copies as [|c cs]; [reflexivity|]. simpl.
  rewrite count_reads_app, count_writes_app, IH
    by (intros x Hx; first [apply Hn | apply Hw]; right; exact Hx).
  assert (Hd : d_path d <> src) by (apply Hn; left; reflexivity).
  assert (E : count_reads src (full_dest_opens src d c) = count_writes (full_dest_opens src d c)).
  { unfold full_dest_opens, count_reads, count_writes.
    destruct c as [m|]; [destruct m; [exfalso; apply (Hw ModeRB); [left|]; reflexivity| |]|];
      destruct (d_status d) as [[]|]; simpl; rewrite ?String.eqb_refl;
      destruct (String.eqb_spec (d_path d) src); try contradiction; reflexivity. }
  rewrite E. reflexivity.
Qed.

(** C2 (amended): a Full-mode file is not copied in one pass.  A
    successful [process_file_body] first opens the source on its own and
    records the digest of its bytes as the file's checksum; then, for each
    destination in turn, a copy that is not skipped opens the source again
    and that destination only (for writing or appending; with skip_existing
    off no copy is skipped), and the destination is opened once more to be
    re-hashed when it exists with the source's size.  These are all the
    opens.  When the source is none of its destinations, the source is
    therefore opened for reading exactly once more than files are opened for
    writing. *)
Theorem full_mode_source_reopened_per_copy
  (digest : hash_alg -> list Z -> string) (j : job) (src : string) (s s' : state) :
  verification_mode j = VFull ->
  process_file_body digest j src s = (s', Ok tt) ->
  exists sd ds recs copies,
    st_fs s !! src = Some (Reg sd)
    /\ fi_checksum (st_file s')
       = digest (if String.eqb (checksum_method j) "xxHash (Fast)" then XXH64 else MD5) sd
    /\ In (src, ds) (resolved_dests j)
    /\ fi_dests (st_file s') = fi_dests (st_file s) ++ recs
    /\ map d_path recs = ds
    /\ length copies = length recs
    /\ (forall m, In (Some m) copies -> m <> ModeRB)
    /\ (skip_existing j = false -> ~ In None copies)
    /\ st_log s' = st_log s ++ EOpen src ModeRB :: full_opens src recs copies
    /\ (~ In src ds ->
        Z.of_nat (count_reads src (st_log s')) - Z.of_nat (count_reads src (st_log s))
        = 1 + (Z.of_nat (count_writes (st_log s')) - Z.of_nat (count_writes (st_log s)))).
Proof.
  intros Hm H. unfold process_file_body in H. rewrite Hm in H.
  apply bind_ok in H as (s1 & sh & H1 & H).
  apply bind_ok in H1 as (s0 & h & H0 & H1).
  apply calculate_hash_ok in H0 as (sd & Hsd & Hh & L0 & F0).
  apply bind_ok in H1 as (s0' & u & H0' & H1). apply upd_file_ok in H0'. subst s0'.
  apply ret_ok in H1 as [-> ->].
  apply bind_ok in H as (s2 & size & H2 & H). apply getsize_ok in H2. subst s2.
  apply bind_ok in H as (s2 & u2 & H2 & H). apply upd_file_ok in H2. subst s2.
  apply bind_ok in H as (s3 & ds & H3 & H). apply lookup_dests_ok in H3 as [-> Hin].
  apply bind_ok in H as (s4 & va & H4 & H).
  destruct (dest_loop_full_ok digest j src _ _ ds Hm _ _ _ _ H4)
    as (recs & copies & D4 & C4 & P4 & N4 & M4 & K4 & L4).
  apply bind_ok in H as (s5 & u5 & H5 & H).
  assert (E5 : st_log s5 = st_log s4 /\ fi_dests (st_file s5) = fi_dests (st_file s4)
               /\ fi_checksum (st_file s5) = fi_checksum (st_file s4)).
  { destruct va.
    - apply upd_file_ok in H5. subst s5. auto.
    - simpl in H5. apply ret_ok in H5 as [-> _]. auto. }
  destruct E5 as (L5 & D5 & C5).
  unfold append_file, modify in H. injection H as <-. cbn [st_log st_file set_report].
  exists sd, ds, recs, copies.
  assert (Llog : st_log s5 = st_log s ++ EOpen src ModeRB :: full_opens src recs copies).
  { rewrite L5, L4. cbn [st_log set_file]. rewrite L0, <- List.app_assoc. reflexivity. }
  split; [exact Hsd|]. split.
  { rewrite C5, C4. cbn [st_file set_file fi_checksum fi_set_size fi_set_checksum]. exact Hh. }
  split; [exact Hin|]. split.
  { rewrite D5, D4. cbn [st_file set_file fi_dests fi_set_size fi_set_checksum].
    rewrite F0. reflexivity. }
  split; [exact P4|]. split; [exact N4|]. split; [exact M4|]. split; [exact K4|].
  split; [exact Llog|].
  intros Hn. rewrite Llog.
  change (EOpen src ModeRB :: full_opens src recs copies)
    with ([EOpen src ModeRB] ++ full_opens src recs copies).
  assert (R1 : count_reads src [EOpen src ModeRB] = 1%nat)
    by (unfold count_reads; simpl; rewrite String.eqb_refl; reflexivity).
  assert (W1 : count_writes [EOpen src ModeRB] = 0%nat) by reflexivity.
  rewrite !count_reads_app, !count_writes_app, R1, W1, full_opens_balance; [lia| |exact M4].
  intros d Hd E. apply Hn. rewrite <- P4, <- E. apply in_map. exact Hd.
Qed.

Lemma full_mode_source_reopened_per_copy_witness :
  let j := job_one VFull ["/d1/clip.mov"; "/d2/clip.mov"] in
  let s := init_state fs_one [] None in
  let s' := fst (process_file_body digest_bytes j "/card/clip.mov" s) in
  exists sd ds recs copies,
    st_fs s !! "/card/clip.mov" = Some (Reg sd)
    /\ fi_checksum (st_file s')
       = digest_bytes (if String.eqb (checksum_method j) "xxHash (Fast)" then XXH64 else MD5) sd
    /\ In ("/card/clip.mov", ds) (resolved_dests j)
    /\ fi_dests (st_file s') = fi_dests (st_file s) ++ recs
    /\ map d_path recs = ds
    /\ length copies = length recs
    /\ (forall m, In (Some m) copies -> m <> ModeRB)
    /\ (skip_existing j = false -> ~ In None copies)
    /\ st_log s' = st_log s ++ EOpen "/card/clip.mov" ModeRB :: full_opens "/card/clip.mov" recs copies
    /\ (~ In "/card/clip.mov" ds ->
        Z.of_nat (count_reads "/card/clip.mov" (st_log s'))
        - Z.of_nat (count_reads "/card/clip.mov" (st_log s))
        = 1 + (Z.of_nat (count_writes (st_log s')) - Z.of_nat (count_writes (st_log s)))).
Proof.
  intros j s s'.
  apply (full_mode_source_reopened_per_copy digest_bytes j "/card/clip.mov" s s').
  - reflexivity.
  - vm_compute. reflexivity.
Defined.

(** X1: TransferWorker._calculate_hash reads the whole file in 4 MiB
    chunks and returns the digest of its complete contents: xxHash64 when
    the method is exactly "xxHash (Fast)" and MD5 for any other method
    string.  It opens the file once for reading and changes nothing else;
    a missing path raises FileNotFoundError and an unreadable one OSError. *)
Theorem calculate_hash_digests_contents digest p m s :
  calculate_hash digest p m s =
  match st_fs s !! p with
  | Some (Reg d) =>
    (set_log (st_log s ++ [EOpen p ModeRB]) s,
     Ok (digest (if String.eqb m "xxHash (Fast)" then XXH64 else MD5) d))
  | Some Unstatable => (s, Exc (OSError p))
  | None => (s, Exc (FileNotFoundError p))
  end.
Proof.
  unfold calculate_hash. cbv zeta. unfold bind, open_read.
  destruct (st_fs s !! p) as [[d|]|]; try reflexivity.
  unfold ret. rewrite hash_loop_whole by (unfold CHUNK_SIZE; lia). reflexivity.
Qed.

(** X2: MHLVerifyWorker._calculate_hash, reading in 8 MiB chunks,
    returns the digest of the complete contents: xxHash64 when the entry's
    hash type is exactly "xxhash64", MD5 otherwise. *)
Theorem mhl_hash_digests_contents digest data method :
  MHL.mhl_hash digest data method =
  digest (if String.eqb method "xxhash64" then XXH64 else MD5) data.
Proof.
  unfold MHL.mhl_hash. rewrite hash_loop_whole by (unfold MHL.MHL_CHUNK_SIZE; lia).
  reflexivity.
Qed.

Lemma copy_loop_prefix fuel dst data pos s d :
  0 <= pos -> st_fs s !! dst = Some (Reg d) ->
  exists s' o pre rest, copy_loop fuel dst data pos s = (s', o)
    /\ pre ++ rest = dropZ pos data
    /\ st_fs s' = <[dst := Reg (d ++ pre)]> (st_fs s)
    /\ st_log s' = st_log s
    /\ (o = Ok tt \/ o = Exc InterruptedError).
Proof.
  revert pos s d. induction fuel as [|f IH]; intros pos s d Hpos Hd.
  - eexists _, _, [], (dropZ pos data). simpl. rewrite app_nil_r, insert_id by exact Hd.
    split; [reflexivity|]. repeat split; auto.
  - simpl. unfold bind at 1, observe_cancel.
    destruct (match st_cancel_at s with Some k => Nat.leb k (st_obs s) | None => false end).
    + eexists _, _, [], (dropZ pos data). rewrite app_nil_r, insert_id by exact Hd.
      split; [reflexivity|]. repeat split; auto.
    + unfold read_chunk. destruct (takeZ CHUNK_SIZE (dropZ pos data)) as [|y t] eqn:Et.
      * eexists _, _, [], (dropZ pos data). rewrite app_nil_r, insert_id by exact Hd.
        split; [reflexivity|]. repeat split; auto.
      * unfold bind at 1, write_chunk, modify. simpl st_fs. rewrite Hd.
        set (s1 := set_fs (<[dst := Reg (d ++ y :: t)]> (st_fs s)) (set_obs (S (st_obs s)) s)).
        destruct (IH (pos + zlen (y :: t)) s1 (d ++ y :: t))
          as (s' & o & pre & rest & Hrun & Hpr & Hfs & Hlog & Ho).
        { pose proof (zlen_nonneg (y :: t)). lia. }
        { unfold s1. simpl. apply lookup_insert_eq. }
        exists s', o, ((y :: t) ++ pre), rest. split; [exact Hrun|].
        split; [|split; [|split]].
        -- rewrite <- List.app_assoc, Hpr, <- dropZ_dropZ by (pose proof (zlen_nonneg (y :: t)); lia).
           rewrite <- Et, dropZ_zlen_takeZ by (unfold CHUNK_SIZE; lia). apply takeZ_dropZ.
        -- rewrite Hfs. unfold s1. simpl. rewrite insert_insert_eq, <- List.app_assoc. reflexivity.
        -- rewrite Hlog. reflexivity.
        -- exact Ho.
Qed.



(** X4: when a copy without resume_partial is cancelled (it raises
    InterruptedError), the destination is left as a regular file holding
    a prefix of the source bytes: the partial file is not removed. *)
Theorem cancelled_copy_leaves_prefix j src dst s s' sd :
  resume_partial j = false -> st_fs s !! src = Some (Reg sd) ->
  copy_file_with_progress j src dst s = (s', Exc InterruptedError) ->
  exists pre rest, pre ++ rest = sd /\ st_fs s' !! dst = Some (Reg pre).
Proof.
  intros Hr Hs Hrun.
  unfold copy_file_with_progress in Hrun. rewrite Hr in Hrun.
  unfold bind at 1, os_path_getsize in Hrun. rewrite Hs in Hrun.
  unfold bind at 1, ret in Hrun. cbn [fst snd] in Hrun.
  unfold bind at 1, open_read in Hrun. rewrite Hs in Hrun.
  unfold bind at 1, open_write in Hrun. cbn [st_fs set_log] in Hrun.
  destruct (st_fs s !! dst) as [[dd|]|] eqn:Edst;
    [| discriminate Hrun |];
  set (s1 := set_log _ _) in Hrun; rewrite bind_gets in Hrun;
  (assert (Hdata : file_contents src s1 = sd \/ file_contents src s1 = [])
     by (unfold s1, file_contents; simpl; destruct (decide (dst = src)) as [->|Hn];
         [right; rewrite lookup_insert_eq; reflexivity
         |left; rewrite (lookup_insert_ne _ dst src) by exact Hn; rewrite Hs; reflexivity]));
  (destruct (copy_loop_prefix (S (length (file_contents src s1))) dst (file_contents src s1)
               0 s1 [])
     as (s2 & o & pre & rest & Hrun2 & Hpr & Hfs & _ & _);
   [lia | unfold s1; simpl; apply lookup_insert_eq |]);
  rewrite Hrun2 in Hrun; injection Hrun as <- _; rewrite dropZ_0 in Hpr; simpl in Hfs;
  (destruct Hdata as [Hdt|Hdt]; rewrite Hdt in Hpr;
   [exists pre, rest; split; [exact Hpr|]
   |apply app_eq_nil in Hpr; destruct Hpr as [-> _]; exists [], sd; split; [reflexivity|]]);
  rewrite Hfs; apply lookup_insert_eq.
Qed.

Lemma cancelled_copy_leaves_prefix_witness :
  exists pre rest, pre ++ rest = [1; 2; 3]
    /\ st_fs (fst (copy_file_with_progress (job_one VFull ["/dest/clip.mov"])
                    "/card/clip.mov" "/dest/clip.mov" (init_state fs_one [] (Some 0%nat))))
         !! "/dest/clip.mov" = Some (Reg pre).
Proof.
  apply (cancelled_copy_leaves_prefix (job_one VFull ["/dest/clip.mov"]) "/card/clip.mov"
           "/dest/clip.mov" (init_state fs_one [] (Some 0%nat))).
  - reflexivity.
  - reflexivity.
  - vm_compute. reflexivity.
Defined.

Lemma dict_set_keys k v d :
  map fst (dict_set k v d) =
  if existsb (String.eqb k) (map fst d) then map fst d else map fst d ++ [k].
Proof.
  induction d as [|[k' v'] r IH]; simpl; [reflexivity|].
  destruct (String.eqb_spec k k'); simpl.
  - subst. reflexivity.
  - rewrite IH. destruct (existsb _ _); reflexivity.
Qed.

Lemma dict_set_find k v d k' :
  find (fun kv => String.eqb (fst kv) k') (dict_set k v d) =
  if String.eqb k k' then Some (k, v) else find (fun kv => String.eqb (fst kv) k') d.
Proof.
  induction d as [|[k1 v1] r IH]; simpl.
  - destruct (String.eqb k k'); reflexivity.
  - destruct (String.eqb_spec k k1); simpl.
    + subst k1. destruct (String.eqb k k'); reflexivity.
    + destruct (String.eqb_spec k1 k'); [|exact IH].
      subst k1. destruct (String.eqb_spec k k'); [congruence|reflexivity].
Qed.

Lemma dict_set_in k v d k' v' :
  In (k', v') (dict_set k v d) -> (k', v') = (k, v) \/ In (k', v') d.
Proof.
  induction d as [|[k1 v1] r IH]; simpl.
  - intros [H|[]]. left. congruence.
  - destruct (String.eqb k k1); simpl; intros [H|H]; auto.
    + destruct (IH H); auto.
Qed.

Lemma dict_set_nodup k v d :
  List.NoDup (map fst d) -> List.NoDup (map fst (dict_set k v d)).
Proof.
  intros Hd. rewrite dict_set_keys. destruct (existsb (String.eqb k) (map fst d)) eqn:E; [exact Hd|].
  apply List.NoDup_app; [exact Hd| constructor; [intros []|constructor] |].
  intros x Hx [Hk|[]]. subst x. assert (existsb (String.eqb k) (map fst d) = true).
  { apply existsb_exists. exists k. split; [exact Hx| apply String.eqb_refl]. }
  congruence.
Qed.

Lemma dict_set_keys_in k v d p :
  In p (map fst (dict_set k v d)) <-> In p (map fst d) \/ p = k.
Proof.
  rewrite dict_set_keys. destruct (existsb (String.eqb k) (map fst d)) eqn:E.
  - split; [auto|]. intros [H| Hp]; [|subst p]; [exact H|].
    apply existsb_exists in E as [x [Hx Hk]]. apply String.eqb_eq in Hk. subst. exact Hx.
  - rewrite in_app_iff. simpl. split; intros [H|H]; auto; destruct H; auto; contradiction.
Qed.

Lemma walk_files_run files base d s :
  st_cancel_at s = None ->
  walk_files files base d s =
  (set_obs (st_obs s + length files) s, Ok (fold_left (fun d p => dict_set p base d) files d)).
Proof.
  revert d s. induction files as [|p r IH]; intros d s Hc; simpl.
  - rewrite Nat.add_0_r. destruct s; reflexivity.
  - unfold bind at 1, observe_cancel. rewrite Hc. simpl.
    rewrite IH by exact Hc. unfold set_obs. simpl. do 3 f_equal. lia.
Qed.

Lemma walk_sources_run srcs d s :
  st_cancel_at s = None ->
  exists n, walk_sources srcs d s =
  (set_obs n s, Ok (fold_left (fun d sp => fold_left (fun d p => dict_set p sp d)
                                                     (walk (st_fs s) sp) d) srcs d)).
Proof.
  revert d s. induction srcs as [|sp r IH]; intros d s Hc; simpl.
  - exists (st_obs s). destruct s; reflexivity.
  - unfold bind at 1, gets, bind at 1. rewrite walk_files_run by exact Hc.
    destruct (IH (fold_left (fun d p => dict_set p sp d) (walk (st_fs s) sp) d)
                 (set_obs (st_obs s + length (walk (st_fs s) sp)) s) Hc) as [n Hn].
    exists n. rewrite Hn. reflexivity.
Qed.

Lemma fold_dict_set files b d :
  let d' := fold_left (fun d p => dict_set p b d) files d in
  (List.NoDup (map fst d) -> List.NoDup (map fst d'))
  /\ (forall p, In p (map fst d') <-> In p (map fst d) \/ In p files)
  /\ (forall p b', In (p, b') d' -> In (p, b') d \/ (b' = b /\ In p files)).
Proof.
  revert d. induction files as [|f r IH]; intros d; simpl.
  - split; [auto|]. split; [intros p; tauto|]. auto.
  - destruct (IH (dict_set f b d)) as (H1 & H2 & H3). split; [|split].
    + intros Hd. apply H1, dict_set_nodup, Hd.
    + intros p. rewrite H2, dict_set_keys_in. split; intros H; decompose sum H; subst; auto.
    + intros p b' Hin. destruct (H3 p b' Hin) as [H|H]; [|tauto].
      apply dict_set_in in H as [H|H]; [|auto]. injection H as -> ->. auto.
Qed.

(** X5: without a cancellation, the walk of the job's sources yields a
    dictionary that lists every file found under any source exactly once,
    and maps it to a source under which the walk found it. *)
Theorem walk_sources_each_file_once srcs s :
  st_cancel_at s = None ->
  exists s' d, walk_sources srcs [] s = (s', Ok d)
    /\ List.NoDup (map fst d)
    /\ (forall p, In p (map fst d) <-> exists sp, In sp srcs /\ In p (walk (st_fs s) sp))
    /\ (forall p b, In (p, b) d -> In b srcs /\ In p (walk (st_fs s) b)).
Proof.
  intros Hc. destruct (walk_sources_run srcs [] s Hc) as [n Hn].
  eexists _, _. split; [exact Hn|].
  assert (G : forall (srcs' : list string) d,
    List.NoDup (map fst d) ->
    let d' := fold_left (fun d sp => fold_left (fun d p => dict_set p sp d)
                                              (walk (st_fs s) sp) d) srcs' d in
    List.NoDup (map fst d')
    /\ (forall p, In p (map fst d') <->
          In p (map fst d) \/ exists sp, In sp srcs' /\ In p (walk (st_fs s) sp))
    /\ (forall p b, In (p, b) d' ->
          In (p, b) d \/ (In b srcs' /\ In p (walk (st_fs s) b)))).
  { induction srcs' as [|sp r IH]; intros d Hd; simpl.
    - split; [exact Hd|]. split; [|auto]. intros p. split; [auto|].
      intros [H|[sp [[] _]]]. exact H.
    - destruct (fold_dict_set (walk (st_fs s) sp) sp d) as (F1 & F2 & F3).
      destruct (IH _ (F1 Hd)) as (G1 & G2 & G3). split; [exact G1|]. split.
      + intros p. rewrite G2, F2. split.
        * intros [[H|H]|[sp' [Hs Hp]]]; [tauto| right; exists sp; auto | right; exists sp'; auto].
        * intros [H|[sp' [[<-|Hs] Hp]]]; [tauto| left; right; exact Hp | right; exists sp'; auto].
      + intros p b Hin. destruct (G3 p b Hin) as [H|[Hb Hp]].
        * destruct (F3 p b H) as [H'|[-> Hp]]; [left; exact H'|right; auto].
        * right; auto. }
  destruct (G srcs [] (List.NoDup_nil _)) as (G1 & G2 & G3). split; [exact G1|]. split.
  - intros p. rewrite G2. simpl. tauto.
  - intros p b Hin. destruct (G3 p b Hin) as [[]|H]. exact H.
Qed.

Lemma walk_sources_each_file_once_witness :
  exists s' d, walk_sources ["/card"] [] (init_state fs_one [] None) = (s', Ok d)
    /\ List.NoDup (map fst d)
    /\ (forall p, In p (map fst d) <->
          exists sp, In sp ["/card"] /\ In p (walk (st_fs (init_state fs_one [] None)) sp))
    /\ (forall p b, In (p, b) d ->
          In b ["/card"] /\ In p (walk (st_fs (init_state fs_one [] None)) b)).
Proof. apply (walk_sources_each_file_once ["/card"] (init_state fs_one [] None)). reflexivity. Defined.

(** The size [os.path.getsize] reports for a listed regular file. *)
Definition reg_size (fs : gmap string fentry) (p : string) : option Z :=
  match fs !! p with Some (Reg d) => Some (zlen d) | _ => None end.

Definition sizes_total (fs : gmap string fentry) (d : list (string * string)) : Z :=
  fold_right (fun pb acc => match reg_size fs (fst pb) with Some n => n + acc | None => acc end) 0 d.

(** X6: when no listed path is unreadable, the size pass keeps, in
    order, exactly the listed files that still exist, drops those that
    vanished without raising, and adds the sizes of the kept files to the
    report's total_size. *)
Theorem collect_sizes_skips_vanished d s :
  (forall pb, In pb d -> st_fs s !! fst pb <> Some Unstatable) ->
  collect_sizes d s =
  (set_report (r_set_total (r_total_size (st_report s) + sizes_total (st_fs s) d) (st_report s)) s,
   Ok (List.filter (fun pb => match reg_size (st_fs s) (fst pb) with Some _ => true | None => false end) d)).
Proof.
  revert s. induction d as [|[p b] r IH]; intros s Hd; simpl.
  - unfold ret. rewrite Z.add_0_r.
    destruct s as [a1 a2 a3 a4 a5 a6 [r1 r2 r3 r4 r5] a8]; reflexivity.
  - unfold bind at 1, try_except, bind at 1, os_path_getsize, reg_size.
    assert (Hp : st_fs s !! p <> Some Unstatable) by (apply (Hd (p, b)); left; reflexivity).
    assert (Hr : forall pb, In pb r -> st_fs s !! fst pb <> Some Unstatable)
      by (intros pb Hpb; apply Hd; right; exact Hpb).
    destruct (st_fs s !! p) as [[x|]|] eqn:Ep; [|congruence|].
    + unfold upd_report, modify, bind at 1, ret. cbn -[collect_sizes].
      unfold bind. rewrite IH by exact Hr. cbn. f_equal. unfold set_report, r_set_total. simpl. f_equal. f_equal. unfold zlen. lia.
    + cbn -[collect_sizes]. unfold bind. rewrite IH by exact Hr. reflexivity.
Qed.

Lemma collect_sizes_skips_vanished_witness :
  collect_sizes [("/card/clip.mov", "/card"); ("/card/gone.mov", "/card")]
                (init_state fs_one [] None) =
  (set_report (r_set_total (r_total_size (st_report (init_state fs_one [] None))
                            + sizes_total fs_one [("/card/clip.mov", "/card"); ("/card/gone.mov", "/card")])
                           (st_report (init_state fs_one [] None)))
              (init_state fs_one [] None),
   Ok (List.filter (fun pb => match reg_size fs_one (fst pb) with Some _ => true | None => false end)
                   [("/card/clip.mov", "/card"); ("/card/gone.mov", "/card")])).
Proof.
  apply (collect_sizes_skips_vanished [("/card/clip.mov", "/card"); ("/card/gone.mov", "/card")]
           (init_state fs_one [] None)).
  intros pb [<-|[<-|[]]]; vm_compute; discriminate.
Defined.

(** A file whose status is 'Verified' has only verified destinations. *)
Definition verified_dests_ok (f : file_info) : Prop :=
  fi_status f = FVerified -> Forall (fun d => d_verified d = true) (fi_dests f).

Definition rep_ok (s : state) : Prop := Forall verified_dests_ok (r_files (st_report s)).

(** Inside the [try] block of a file: the status is still 'Failed' and,
    while [verified_all_dests] is [va], every recorded destination is
    verified. *)
Definition dests_inv (va : bool) (s : state) : Prop :=
  rep_ok s /\ fi_status (st_file s) = FFailed
  /\ (va = true -> Forall (fun d => d_verified d = true) (fi_dests (st_file s))).

Lemma stable_dests_inv va : stable (dests_inv va).
Proof. intros s Hs. split; [|split]; intros; exact Hs. Qed.

Lemma stable_rep_ok : stable rep_ok.
Proof. intros s Hs. split; [|split]; intros; exact Hs. Qed.

Lemma dests_inv_add_error va e : keeps (dests_inv va) (add_error e).
Proof. apply keeps_modify. intros s Hs. exact Hs. Qed.

Lemma dests_inv_add_dest va d :
  (va = true -> d_verified d = true) ->
  triple (dests_inv va) (add_dest d) (fun _ => dests_inv va) (dests_inv va).
Proof.
  intros Hd. apply triple_modify. intros s (H1 & H2 & H3).
  split; [exact H1|]. split; [exact H2|]. intros Hva. simpl.
  apply Forall_app. split; [exact (H3 Hva)|]. constructor; [exact (Hd Hva)|constructor].
Qed.

Lemma dests_inv_false va s : dests_inv va s -> dests_inv false s.
Proof. intros (H1 & H2 & _). split; [exact H1|]. split; [exact H2|]. discriminate. Qed.

Lemma dests_inv_fail {A} va e d (k : M A) Q :
  d_verified d = false ->
  triple (dests_inv false) k Q (dests_inv false) ->
  triple (dests_inv va) (add_error e ;;; add_dest d ;;; k) Q (dests_inv false).
Proof.
  intros Hd Hk. apply (triple_bind _ _ _ (fun _ => dests_inv false)).
  { apply triple_modify. intros s Hs. exact (dests_inv_false va s Hs). }
  intros _. apply (triple_bind _ _ _ (fun _ => dests_inv false)); [|intros _; exact Hk].
  eapply triple_conseq; [apply (dests_inv_add_dest false d)| | |]; auto.
  intros H. discriminate H.
Qed.

Lemma dests_inv_pass {A} va d (k : M A) Q :
  d_verified d = true ->
  triple (dests_inv va) k Q (dests_inv false) ->
  triple (dests_inv va) (add_dest d ;;; k) Q (dests_inv false).
Proof.
  intros Hd Hk. apply (triple_bind _ _ _ (fun _ => dests_inv va)); [|intros _; exact Hk].
  eapply triple_conseq; [apply (dests_inv_add_dest va d)| | |]; auto.
  apply dests_inv_false.
Qed.

Lemma dests_inv_keeps {A B} va (m : M A) (k : A -> M B) Q :
  keeps (dests_inv va) m ->
  (forall a, triple (dests_inv va) (k a) Q (dests_inv false)) ->
  triple (dests_inv va) (bind m k) Q (dests_inv false).
Proof.
  intros Hm Hk. eapply triple_bind; [|exact Hk].
  apply keeps_weaken; [exact Hm| apply dests_inv_false].
Qed.

Lemma triple_dest_loop_verified digest j src sh size dests va :
  verification_mode j <> VNone ->
  triple (dests_inv va) (dest_loop digest j src sh size dests va)
         (fun va' => dests_inv va') (dests_inv false).
Proof.
  intros Hm. revert va. induction dests as [|dst rest IH]; intros va; simpl.
  - apply triple_ret. auto.
  - pose proof (stable_dests_inv va) as HS.
    apply dests_inv_keeps; [keeps_auto|]. intros sk.
    apply dests_inv_keeps.
    { destruct (negb sk); [apply keeps_copy_file; exact HS| apply keeps_ret]. }
    intros _.
    destruct (verification_mode j) eqn:Em; [| |contradiction];
      (apply dests_inv_keeps; [apply keeps_exists; exact HS|]; intros e;
       destruct (negb e); [apply dests_inv_fail; [reflexivity| apply IH]|];
       apply dests_inv_keeps; [apply keeps_getsize; exact HS|]; intros ds;
       destruct (negb (size =? ds)); [apply dests_inv_fail; [reflexivity| apply IH]|]).
    + apply dests_inv_keeps; [apply keeps_calculate_hash; exact HS|]. intros h.
      destruct (opt_eqb sh (Some h)).
      * apply dests_inv_pass; [reflexivity| apply IH].
      * apply dests_inv_fail; [reflexivity| apply IH].
    + apply dests_inv_pass; [reflexivity| apply IH].
Qed.

Lemma triple_process_file_verified digest j src :
  verification_mode j <> VNone ->
  keeps rep_ok (process_file digest j src).
Proof.
  intros Hm. unfold process_file.
  apply (triple_bind _ _ _ (fun _ s => rep_ok s /\ fi_status (st_file s) = FFailed
                                        /\ fi_dests (st_file s) = [])).
  { apply triple_modify. intros s Hs. simpl. auto. }
  intros _. apply triple_try.
  - unfold process_file_body.
    set (Q0 := fun s => rep_ok s /\ fi_status (st_file s) = FFailed /\ fi_dests (st_file s) = []).
    assert (HS : stable Q0) by (intros s Hs; split; [|split]; intros; exact Hs).
    apply (triple_bind _ _ _ (fun _ => Q0)).
    { apply keeps_weaken; [|intros s Hs; exact (proj1 Hs)].
      destruct (verification_mode j); keeps_auto;
        first [apply keeps_calculate_hash; exact HS
              | apply keeps_modify; intros s Hs; exact Hs]. }
    intros sh. cbv beta.
    apply (triple_bind _ _ _ (fun _ => Q0)).
    { apply keeps_weaken; [apply keeps_getsize; exact HS|intros s Hs; exact (proj1 Hs)]. }
    intros n. cbv beta.
    apply (triple_bind _ _ _ (fun _ => Q0)).
    { apply triple_modify. intros s Hs. exact Hs. }
    intros _. cbv beta.
    apply (triple_bind _ _ _ (fun _ => Q0)).
    { apply keeps_weaken; [apply keeps_lookup_dests|intros s Hs; exact (proj1 Hs)]. }
    intros ds. cbv beta.
    apply (triple_bind _ _ _ (fun va => dests_inv va)).
    { eapply triple_conseq; [apply triple_dest_loop_verified; exact Hm| | |].
      - intros s (H1 & H2 & H3). split; [exact H1|]. split; [exact H2|].
        intros _. rewrite H3. constructor.
      - auto.
      - intros s Hs. exact (proj1 Hs). }
    intros va. cbv beta.
    apply (triple_bind _ _ _ (fun _ s => rep_ok s /\ verified_dests_ok (st_file s))).
    { destruct va.
      - apply triple_modify. intros s (H1 & H2 & H3). split; [exact H1|].
        intros _. exact (H3 eq_refl).
      - destruct (verification_mode j); try contradiction.
        all: apply triple_ret; intros s Hs; destruct Hs as (H1 & H2 & H3);
          split; [exact H1| intros E; congruence]. }
    intros _. apply triple_modify. intros s [H1 H2].
    unfold rep_ok; simpl. apply Forall_app. split; [exact H1|]. constructor; [exact H2|constructor].
  - intros e. apply (triple_bind _ _ _ (fun _ s => rep_ok s /\ verified_dests_ok (st_file s))).
    { apply triple_modify. intros s Hs. split; [exact Hs|]. intros E. discriminate E. }
    intros _. apply (triple_bind _ _ _ (fun _ => rep_ok)).
    { apply triple_modify. intros s [H1 H2].
      unfold rep_ok; simpl. apply Forall_app. split; [exact H1|]. constructor; [exact H2|constructor]. }
    intros _. apply triple_modify. intros s Hs. exact Hs.
Qed.

Lemma keeps_rep_ok_file_loop digest j files total :
  verification_mode j <> VNone -> keeps rep_ok (file_loop digest j files total).
Proof.
  intros Hm. pose proof stable_rep_ok as HS.
  revert total. induction files as [|[src b] r IH]; intros total; simpl; keeps_auto.
  - apply keeps_cancel_return; try exact HS. intros s Hs. exact Hs.
  - apply triple_process_file_verified, Hm.
  - apply keeps_modify. intros s Hs. exact Hs.
  - apply IH.
Qed.

(** X7: for a job whose verification mode is Full or Size, every file
    the finished report lists as 'Verified' has all its destination
    records marked verified. *)
Theorem verified_file_all_dests_verified digest j fs mounts cancel_at :
  verification_mode j <> VNone ->
  Forall (fun f => fi_status f = FVerified -> Forall (fun d => d_verified d = true) (fi_dests f))
         (r_files (finished_report digest j (init_state fs mounts cancel_at))).
Proof.
  intros Hm. pose proof stable_rep_ok as HS.
  change (rep_ok (fst (run digest j (init_state fs mounts cancel_at)))).
  apply (triple_fst rep_ok); [|constructor].
  unfold run. apply keeps_bind.
  - apply keeps_try.
    + unfold run_body. keeps_auto;
        first [ apply keeps_modify; intros s Hs; exact Hs
              | apply keeps_walk_sources; try exact HS; intros s Hs; exact Hs
              | apply keeps_collect_sizes; try exact HS; intros n s Hs; exact Hs
              | apply keeps_rep_ok_file_loop; exact Hm
              | apply keeps_eject_loop; exact HS ].
    + intros e. keeps_auto; apply keeps_modify; intros s Hs; exact Hs.
  - intros _. keeps_auto. apply keeps_modify. intros s Hs. exact Hs.
Qed.

Lemma verified_file_all_dests_verified_witness :
  Forall (fun f => fi_status f = FVerified -> Forall (fun d => d_verified d = true) (fi_dests f))
         (r_files (finished_report digest_bytes (job_one VFull ["/dest/clip.mov"])
                                   (init_state fs_one [] None))).
Proof.
  apply (verified_file_all_dests_verified digest_bytes (job_one VFull ["/dest/clip.mov"])
           fs_one [] None).
  discriminate.
Defined.

Lemma walk_sources_cancelled srcs d s :
  st_cancel_at s = Some 0%nat ->
  (exists sp p, In sp srcs /\ In p (walk (st_fs s) sp)) ->
  exists n, walk_sources srcs d s =
    (set_report (r_set_status JCancelled (st_report s)) (set_obs n s), Ret).
Proof.
  intros Hc. revert d. induction srcs as [|sp r IH]; intros d [sp' [p [Hin Hp]]];
    [destruct Hin|].
  simpl. unfold bind at 1, gets.
  destruct (walk (st_fs s) sp) as [|q rest] eqn:Ew.
  - simpl. unfold ret. apply IH. destruct Hin as [<-|Hin]; [rewrite Ew in Hp; destruct Hp|].
    exists sp', p. auto.
  - exists (S (st_obs s)). simpl. unfold bind, observe_cancel. simpl. rewrite Hc. reflexivity.
Qed.

(** X8: when cancellation is already requested as the job starts and a
    source holds at least one file, the job ends 'Cancelled' with no file
    record and without opening any file. *)
Theorem cancelled_before_start_opens_nothing digest j fs mounts sp p :
  In sp (sources j) -> In p (walk fs sp) ->
  let s' := fst (run digest j (init_state fs mounts (Some 0%nat))) in
  r_status (st_report s') = JCancelled /\ r_files (st_report s') = [] /\ st_log s' = [].
Proof.
  intros Hsp Hp s'.
  destruct (walk_sources_cancelled (sources j) []
              (set_progress (st_progress (init_state fs mounts (Some 0%nat)) ++ [0])
                            (init_state fs mounts (Some 0%nat))))
    as [n Hn]; [reflexivity| exists sp, p; auto|].
  assert (Hrun : run digest j (init_state fs mounts (Some 0%nat)) =
    (set_report (r_set_status JCancelled
                   (st_report (set_progress (st_progress (init_state fs mounts (Some 0%nat)) ++ [0])
                                            (init_state fs mounts (Some 0%nat)))))
                (set_obs n (set_progress (st_progress (init_state fs mounts (Some 0%nat)) ++ [0])
                                         (init_state fs mounts (Some 0%nat)))), Ret)).
  { unfold run, run_body, bind, try_except, emit_progress, modify. cbv beta. rewrite Hn. reflexivity. }
  unfold s'. rewrite Hrun. simpl. auto.
Qed.

Lemma cancelled_before_start_opens_nothing_witness :
  let s' := fst (run digest_bytes (job_one VFull ["/dest/clip.mov"])
                     (init_state fs_one [] (Some 0%nat))) in
  r_status (st_report s') = JCancelled /\ r_files (st_report s') = [] /\ st_log s' = [].
Proof.
  apply (cancelled_before_start_opens_nothing digest_bytes (job_one VFull ["/dest/clip.mov"])
           fs_one [] "/card" "/card/clip.mov").
  - left. reflexivity.
  - vm_compute. left. reflexivity.
Defined.

(* ------------------------------------------------------------------ *)
(** ** Further queue operations of JobManager *)

Module Queue.
Import QArith.
Import JobManager.
Open Scope Z_scope.

(** The manager with its queue, completed and active lists replaced. *)
Definition with_lists (q c a : list qjob) (m : manager) : manager :=
  mkManager q c a (max_concurrent_jobs m) (is_running m) (is_paused m)
    (current_queue_had_errors m) (total_queue_size m)
    (total_bytes_processed_in_queue m) (queue_start_time m)
    (last_progress_update_time m) (pause_time m)
    (active_job_progress m) (speed_history m).

(** JobManager.get_all_jobs *)
Definition get_all_jobs (m : manager) : list qjob :=
  active_workers m ++ job_queue m ++ completed_jobs m.

(** JobManager.add_job_to_queue *)
Definition add_job_to_queue (j : qjob) (m : manager) : manager :=
  let m1 := with_lists (job_queue m ++ [j]) (completed_jobs m) (active_workers m) m in
  if is_running m1 then start_available_jobs (length (job_queue m1)) m1 else m1.

(** [job['id'] == id] *)
Definition has_id (id : string) (j : qjob) : bool := String.eqb (qj_id j) id.

(** JobManager.remove_job_by_id *)
Definition remove_job_by_id (id : string) (m : manager) : manager :=
  if is_running m then m else
  let q := List.filter (fun j => negb (has_id id j)) (job_queue m) in
  if Nat.ltb (length q) (length (job_queue m)) then
    with_lists q (completed_jobs m) (active_workers m) m
  else
    let c := List.filter (fun j => negb (has_id id j)) (completed_jobs m) in
    with_lists q c (active_workers m) m.

(** [self.is_running = running; self.is_paused = paused] *)
Definition set_flags (running paused : bool) (m : manager) : manager :=
  mkManager (job_queue m) (completed_jobs m) (active_workers m)
    (max_concurrent_jobs m) running paused
    (current_queue_had_errors m) (total_queue_size m)
    (total_bytes_processed_in_queue m) (queue_start_time m)
    (last_progress_update_time m) (pause_time m)
    (active_job_progress m) (speed_history m).

(** [if job['status'] != 'Cancelled': job['status'] = 'Cancelled'] *)
Definition cancel_job (j : qjob) : qjob :=
  if String.eqb (qj_status j) "Cancelled" then j else set_status "Cancelled" j.

(** JobManager.cancel_queue; [yes] is the answer to the confirmation
    dialog.  Each worker's job dictionary is the one re-inserted at the
    front of the queue, so its new status shows in both lists. *)
Definition cancel_queue (yes : bool) (m : manager) : manager :=
  if negb (is_running m) then m else
  if negb yes then m else
  let act := map (set_status "Cancelled") (active_workers m) in
  let q := fold_left (fun q j => j :: q) act (job_queue m) in
  set_flags false false (with_lists (map cancel_job q) (completed_jobs m) act m).

(** [list.remove(x)] on the first element selected by [p]. *)
Fixpoint remove_first {A} (p : A -> bool) (l : list A) : list A :=
  match l with
  | [] => []
  | x :: r => if p x then r else x :: remove_first p r
  end.

(** JobManager.queue_finished (the signals apart). *)
Definition queue_finished (m : manager) : manager := set_flags false false m.

(** JobManager._on_worker_finished for the worker running job [wid]; a
    worker is identified by the id of its job. *)
Definition on_worker_finished (wid : string) (m : manager) : manager :=
  let m1 := with_lists (job_queue m) (completed_jobs m)
                       (remove_first (has_id wid) (active_workers m)) m in
  let m2 := if is_running m1 then start_available_jobs (length (job_queue m1)) m1 else m1 in
  match job_queue m2, active_workers m2 with
  | [], [] => queue_finished m2
  | _, _ => m2
  end.

Lemma start_available_jobs_split fuel m :
  let m' := start_available_jobs fuel m in
  exists taken, job_queue m = taken ++ job_queue m'
    /\ completed_jobs m' = completed_jobs m ++ List.filter is_cancelled taken
    /\ active_workers m' = active_workers m
         ++ map (set_status "Running") (List.filter (fun j => negb (is_cancelled j)) taken)
    /\ max_concurrent_jobs m' = max_concurrent_jobs m.
Proof.
  revert m. induction fuel as [|f IH]; intros m; simpl.
  - exists []. simpl. rewrite !app_nil_r. auto.
  - destruct (Nat.ltb _ _); [|exists []; simpl; rewrite !app_nil_r; auto].
    destruct (job_queue m) as [|j rest] eqn:Eq; [exists []; simpl; rewrite !app_nil_r; auto|].
    destruct (String.eqb (qj_status j) "Cancelled") eqn:Ec;
      match goal with |- context [start_available_jobs f ?m1] =>
        destruct (IH m1) as (t & H1 & H2 & H3 & H4); set (m' := start_available_jobs f m1) in *
      end; simpl in H1, H2, H3, H4; exists (j :: t);
      (split; [rewrite H1; reflexivity|]);
      assert (Hc : is_cancelled j = String.eqb (qj_status j) "Cancelled") by reflexivity;
      rewrite Ec in Hc; cbn [List.filter map]; rewrite Hc; cbn [negb map];
      (split; [rewrite H2; try rewrite <- List.app_assoc; reflexivity|]);
      (split; [rewrite H3; try rewrite <- List.app_assoc; reflexivity| exact H4]).
Qed.


Lemma start_available_jobs_bound fuel m :
  (length (active_workers m) <= max_concurrent_jobs m)%nat ->
  (length (job_queue m) <= fuel)%nat ->
  let m' := start_available_jobs fuel m in
  (length (active_workers m') <= max_concurrent_jobs m)%nat
  /\ (job_queue m' = [] \/ length (active_workers m') = max_concurrent_jobs m).
Proof.
  revert m. induction fuel as [|f IH]; intros m Ha Hq; simpl.
  - split; [lia|left]. destruct (job_queue m); [reflexivity|simpl in Hq; lia].
  - destruct (Nat.ltb_spec (length (active_workers m)) (max_concurrent_jobs m)) as [Hlt|Hge];
      [|split; [lia|right; lia]].
    destruct (job_queue m) as [|j rest] eqn:Eq; [split; [lia|left; exact Eq]|].
    simpl in Hq.
    destruct (String.eqb (qj_status j) "Cancelled");
      match goal with |- context [start_available_jobs f ?m1] =>
        apply (IH m1); simpl; [rewrite ?List.length_app; simpl; lia|lia]
      end.
Qed.

Lemma perm_filter_split {A} (p : A -> bool) (l : list A) :
  Permutation l (List.filter p l ++ List.filter (fun x => negb (p x)) l).
Proof.
  induction l as [|x r IH]; simpl; [constructor|].
  destruct (p x); simpl.
  - constructor. exact IH.
  - apply Permutation_cons_app. exact IH.
Qed.

Lemma map_id_set_status st l : map qj_id (map (set_status st) l) = map qj_id l.
Proof. rewrite map_map. reflexivity. Qed.

Lemma start_available_jobs_ids fuel m :
  Permutation (map qj_id (get_all_jobs (start_available_jobs fuel m)))
              (map qj_id (get_all_jobs m)).
Proof.
  destruct (start_available_jobs_split fuel m) as (t & H1 & H2 & H3 & _).
  unfold get_all_jobs. rewrite H1, H2, H3.
  rewrite !map_app, map_id_set_status.
  assert (Ht : Permutation (map qj_id t)
     (map qj_id (List.filter is_cancelled t)
      ++ map qj_id (List.filter (fun j => negb (is_cancelled j)) t)))
    by (rewrite <- map_app; apply Permutation_map, perm_filter_split).
  rewrite Ht. solve_Permutation.
Qed.

(** Concrete managers: a stopped one with a queued and a completed job,
    and a running one with one worker busy and one job waiting. *)
Definition qj (id st : string) : qjob := mkQJob id None st (Some 3) ["/card"; "/dest"].

Definition mgr_stopped : manager :=
  mkManager [qj "Job_2" "Queued"] [qj "Job_1" "Completed"] [] 1
            false false false 0 0 0%Q 0%Q 0%Q ∅ [].

Definition mgr_running : manager :=
  mkManager [qj "Job_2" "Queued"] [] [qj "Job_1" "Running"] 1
            true false false 6 0 0%Q 0%Q 0%Q (<["Job_1" := 0]> ∅) [].

(** X9: adding a job adds exactly its id to the jobs get_all_jobs lists,
    and starting, pausing or resuming the queue neither loses nor
    duplicates a listed job: the ids are the same up to order. *)
Theorem queue_ops_keep_job_ids j now m :
  Permutation (map qj_id (get_all_jobs (add_job_to_queue j m)))
              (map qj_id (get_all_jobs m) ++ [qj_id j])
  /\ Permutation (map qj_id (get_all_jobs (start_or_pause_queue now m)))
                 (map qj_id (get_all_jobs m)).
Proof.
  split.
  - unfold add_job_to_queue.
    set (m1 := with_lists (job_queue m ++ [j]) (completed_jobs m) (active_workers m) m).
    assert (E : Permutation (map qj_id (get_all_jobs m1)) (map qj_id (get_all_jobs m) ++ [qj_id j])).
    { unfold m1, get_all_jobs, with_lists. simpl. rewrite !map_app. simpl. solve_Permutation. }
    destruct (is_running m1); [|exact E].
    eapply Permutation_trans; [apply start_available_jobs_ids|exact E].
  - unfold start_or_pause_queue.
    destruct (is_running m); simpl negb; cbv iota.
    + destruct (is_paused m); unfold get_all_jobs; reflexivity.
    + destruct (job_queue m) as [|q0 qs] eqn:Eq; [reflexivity|].
      eapply Permutation_trans; [apply start_available_jobs_ids|].
      unfold get_all_jobs. simpl. rewrite Eq. reflexivity.
Qed.

Lemma filter_shorter_iff {A} (p : A -> bool) (l : list A) :
  (length (List.filter p l) < length l)%nat <-> existsb (fun x => negb (p x)) l = true.
Proof.
  induction l as [|x r IH]; simpl; [split; [lia|discriminate]|].
  pose proof (List.filter_length_le p r) as Hle.
  destruct (p x); simpl.
  - rewrite <- IH. lia.
  - split; [reflexivity|lia].
Qed.

(** X10: remove_job_by_id changes nothing while the queue runs.  On a
    stopped queue it drops every queued job with that id; the completed
    list is filtered the same way only when no queued job had the id, and
    the active workers are untouched. *)
Theorem remove_job_by_id_effect id m :
  (is_running m = true -> remove_job_by_id id m = m)
  /\ (is_running m = false ->
      let m' := remove_job_by_id id m in
      (forall j, In j (job_queue m') <-> In j (job_queue m) /\ qj_id j <> id)
      /\ active_workers m' = active_workers m
      /\ completed_jobs m' =
         if existsb (has_id id) (job_queue m) then completed_jobs m
         else List.filter (fun j => negb (has_id id j)) (completed_jobs m)).
Proof.
  split.
  - intros Hr. unfold remove_job_by_id. rewrite Hr. reflexivity.
  - intros Hr. unfold remove_job_by_id. rewrite Hr.
    assert (Hin : forall l j, In j (List.filter (fun j => negb (has_id id j)) l)
                              <-> In j l /\ qj_id j <> id).
    { intros l j. rewrite filter_In, negb_true_iff. unfold has_id.
      rewrite String.eqb_neq. tauto. }
    assert (Hex : existsb (fun x => negb (negb (has_id id x))) (job_queue m)
                  = existsb (has_id id) (job_queue m)).
    { induction (job_queue m) as [|x r IH]; simpl; [reflexivity|].
      rewrite negb_involutive, IH. reflexivity. }
    destruct (Nat.ltb_spec (length (List.filter (fun j => negb (has_id id j)) (job_queue m)))
                           (length (job_queue m))) as [Hl|Hl].
    + apply filter_shorter_iff in Hl. rewrite Hex in Hl. rewrite Hl.
      unfold with_lists; simpl. split; [apply Hin|split; reflexivity].
    + destruct (existsb (has_id id) (job_queue m)) eqn:E.
      * exfalso. apply filter_shorter_iff in Hex. lia.
      * unfold with_lists; simpl. split; [apply Hin|split; reflexivity].
Qed.

Lemma remove_job_by_id_effect_witness :
  is_running mgr_stopped = false
  /\ (let m' := remove_job_by_id "Job_1" mgr_stopped in
      (forall j, In j (job_queue m') <-> In j (job_queue mgr_stopped) /\ qj_id j <> "Job_1")
      /\ active_workers m' = active_workers mgr_stopped
      /\ completed_jobs m' =
         if existsb (has_id "Job_1") (job_queue mgr_stopped) then completed_jobs mgr_stopped
         else List.filter (fun j => negb (has_id "Job_1" j)) (completed_jobs mgr_stopped)).
Proof.
  split; [reflexivity|].
  apply (proj2 (remove_job_by_id_effect "Job_1" mgr_stopped)). reflexivity.
Defined.

Lemma fold_cons_rev {A} (l q : list A) :
  fold_left (fun q j => j :: q) l q = rev l ++ q.
Proof.
  revert q. induction l as [|x r IH]; intros q; simpl; [reflexivity|].
  rewrite IH, <- List.app_assoc. reflexivity.
Qed.

(** X11: cancel_queue does nothing unless the queue runs and the user
    confirms.  Otherwise it stops and unpauses the queue; every job left in
    the queue is 'Cancelled'; the queue is the running jobs in reverse
    order followed by the old queue; the workers stay in the active list
    with their jobs marked 'Cancelled'; the completed list is unchanged. *)
Theorem cancel_queue_effect yes m :
  (is_running m = false \/ yes = false -> cancel_queue yes m = m)
  /\ (is_running m = true -> yes = true ->
      let m' := cancel_queue yes m in
      is_running m' = false /\ is_paused m' = false
      /\ Forall (fun j => qj_status j = "Cancelled") (job_queue m')
      /\ map qj_id (job_queue m') = rev (map qj_id (active_workers m)) ++ map qj_id (job_queue m)
      /\ active_workers m' = map (set_status "Cancelled") (active_workers m)
      /\ completed_jobs m' = completed_jobs m).
Proof.
  split.
  - intros [H|H]; unfold cancel_queue; rewrite H; [reflexivity|].
    destruct (is_running m); reflexivity.
  - intros Hr Hy. unfold cancel_queue. rewrite Hr, Hy. simpl negb. cbv iota.
    unfold set_flags, with_lists; simpl.
    rewrite fold_cons_rev.
    split; [reflexivity|split; [reflexivity|]].
    split; [|split; [|split; reflexivity]].
    + apply List.Forall_forall. intros j Hj. apply in_map_iff in Hj as (j0 & <- & _).
      unfold cancel_job. destruct (String.eqb (qj_status j0) "Cancelled") eqn:E.
      * apply String.eqb_eq, E.
      * reflexivity.
    + rewrite map_map.
      assert (Hc : forall j, qj_id (cancel_job j) = qj_id j)
        by (intros j; unfold cancel_job; destruct (String.eqb _ _); reflexivity).
      rewrite (map_ext _ _ Hc), map_app, map_rev, map_id_set_status. reflexivity.
Qed.

Lemma cancel_queue_effect_witness :
  is_running mgr_running = true
  /\ (let m' := cancel_queue true mgr_running in
      is_running m' = false /\ is_paused m' = false
      /\ Forall (fun j => qj_status j = "Cancelled") (job_queue m')
      /\ map qj_id (job_queue m') = rev (map qj_id (active_workers mgr_running))
                                    ++ map qj_id (job_queue mgr_running)
      /\ active_workers m' = map (set_status "Cancelled") (active_workers mgr_running)
      /\ completed_jobs m' = completed_jobs mgr_running).
Proof.
  split; [reflexivity|].
  apply (proj2 (cancel_queue_effect true mgr_running)); reflexivity.
Defined.

Lemma filter_all_cancelled t :
  Forall (fun j => qj_status j = "Cancelled") t ->
  List.filter is_cancelled t = t
  /\ List.filter (fun j => negb (is_cancelled j)) t = [].
Proof.
  induction 1 as [|j r Hj _ [IH1 IH2]]; [split; reflexivity|].
  assert (E : is_cancelled j = true) by (unfold is_cancelled; rewrite Hj; reflexivity).
  simpl. rewrite E, IH1, IH2. split; reflexivity.
Qed.

(** X12: starting a stopped queue whose jobs are all 'Cancelled', with no
    active worker and at least one slot, moves every job to the completed
    list and starts none, yet leaves the queue running with nothing queued
    and no worker, so no worker finish will ever end it. *)
Theorem restart_cancelled_queue_runs_idle now m :
  is_running m = false -> job_queue m <> [] -> active_workers m = [] ->
  (0 < max_concurrent_jobs m)%nat ->
  Forall (fun j => qj_status j = "Cancelled") (job_queue m) ->
  let m' := start_or_pause_queue now m in
  is_running m' = true /\ job_queue m' = [] /\ active_workers m' = []
  /\ completed_jobs m' = completed_jobs m ++ job_queue m.
Proof.
  intros Hr Hq Ha Hmax Hc m'. unfold m', start_or_pause_queue. rewrite Hr. simpl negb. cbv iota.
  destruct (job_queue m) as [|j0 js] eqn:Eq; [congruence|].
  rewrite <- Eq in Hc |- *.
  match goal with |- context [start_available_jobs ?f ?m1] =>
    destruct (start_available_jobs_split f m1) as (t & H1 & H2 & H3 & H4);
    destruct (start_available_jobs_frame f m1) as (F1 & _);
    destruct (start_available_jobs_bound f m1) as (B1 & B2);
    set (mr := start_available_jobs f m1) in *
  end; simpl in *; rewrite ?Ha; simpl; try lia.
  assert (Ht : Forall (fun j => qj_status j = "Cancelled") t)
    by (rewrite H1 in Hc; apply Forall_app in Hc; tauto).
  destruct (filter_all_cancelled t Ht) as [Hf1 Hf2].
  rewrite Hf2, Ha in H3. simpl in H3.
  assert (Hmr : job_queue mr = []) by (destruct B2 as [B2|B2]; [exact B2|rewrite H3 in B2; simpl in B2; lia]).
  split; [exact F1|]. split; [exact Hmr|]. split; [exact H3|].
  rewrite Hmr, app_nil_r in H1. rewrite H2, Hf1, H1. reflexivity.
Qed.

Lemma restart_cancelled_queue_runs_idle_witness :
  let m := on_worker_finished "Job_1" (cancel_queue true mgr_running) in
  let m' := start_or_pause_queue 7%Q m in
  is_running m' = true /\ job_queue m' = [] /\ active_workers m' = []
  /\ completed_jobs m' = completed_jobs m ++ job_queue m.
Proof.
  apply (restart_cancelled_queue_runs_idle 7%Q
           (on_worker_finished "Job_1" (cancel_queue true mgr_running))).
  - reflexivity.
  - vm_compute. discriminate.
  - reflexivity.
  - vm_compute. lia.
  - vm_compute. repeat constructor.
Defined.

Lemma remove_first_length {A} (p : A -> bool) l :
  (length (remove_first p l) <= length l)%nat.
Proof. induction l as [|x r IH]; simpl; [lia|]. destruct (p x); simpl; lia. Qed.

(** X13: when a worker of a running queue finishes (with at least one
    slot and no more workers than slots), either the queue stops with
    nothing queued and no worker, or it keeps running with at least one
    worker, no more workers than slots, and either an empty queue or every
    slot in use. *)
Theorem worker_finished_refills_or_stops wid m :
  is_running m = true -> (0 < max_concurrent_jobs m)%nat ->
  (length (active_workers m) <= max_concurrent_jobs m)%nat ->
  let m' := on_worker_finished wid m in
  (is_running m' = false /\ job_queue m' = [] /\ active_workers m' = [])
  \/ (is_running m' = true /\ active_workers m' <> []
      /\ (length (active_workers m') <= max_concurrent_jobs m)%nat
      /\ (job_queue m' = [] \/ length (active_workers m') = max_concurrent_jobs m)).
Proof.
  intros Hr Hmax Hle m'. unfold m', on_worker_finished. cbv zeta.
  set (m1 := with_lists (job_queue m) (completed_jobs m)
                        (remove_first (has_id wid) (active_workers m)) m).
  assert (Hr1 : is_running m1 = true) by exact Hr.
  rewrite Hr1.
  pose proof (remove_first_length (has_id wid) (active_workers m)) as Hrm.
  destruct (start_available_jobs_frame (length (job_queue m1)) m1) as (F1 & _).
  destruct (start_available_jobs_bound (length (job_queue m1)) m1) as (B1 & B2);
    [simpl; lia|lia|].
  set (mr := start_available_jobs (length (job_queue m1)) m1) in *.
  simpl in B1, B2, F1.
  destruct (job_queue mr) as [|q qs] eqn:Eq; destruct (active_workers mr) as [|a r] eqn:Ea; cbv iota; rewrite ?Eq, ?Ea.
  - left. unfold queue_finished, set_flags. simpl. rewrite Eq, Ea. repeat split.
  - right. split; [rewrite F1; exact Hr|]. split; [discriminate|]. split; [exact B1|left; reflexivity].
  - destruct B2 as [B2|B2]; [discriminate|simpl in B2; lia].
  - right. split; [rewrite F1; exact Hr|]. split; [discriminate|]. split; [exact B1|destruct B2 as [B2|B2]; [discriminate|right; exact B2]].
Qed.

Lemma worker_finished_refills_or_stops_witness :
  let m' := on_worker_finished "Job_1" mgr_running in
  (is_running m' = false /\ job_queue m' = [] /\ active_workers m' = [])
  \/ (is_running m' = true /\ active_workers m' <> []
      /\ (length (active_workers m') <= max_concurrent_jobs mgr_running)%nat
      /\ (job_queue m' = [] \/ length (active_workers m') = max_concurrent_jobs mgr_running)).
Proof.
  apply (worker_finished_refills_or_stops "Job_1" mgr_running).
  - reflexivity.
  - vm_compute. lia.
  - vm_compute. lia.
Defined.

(** X14: a progress update leaves the manager unchanged and emits nothing
    exactly when the job has no progress entry (a job not started as a
    copy) or the reported bytes do not exceed the recorded ones. *)
Theorem progress_update_ignored_iff now jid b m :
  on_worker_progress_updated now jid b m = (m, None)
  <-> active_job_progress m !! jid = None
      \/ exists prev, active_job_progress m !! jid = Some prev /\ b <= prev.
Proof.
  unfold on_worker_progress_updated.
  destruct (active_job_progress m !! jid) as [prev|].
  - destruct (Z.leb_spec (b - prev) 0) as [Hd|Hd].
    + split; [intros _; right; exists prev; split; [reflexivity|lia]|reflexivity].
    + split; [discriminate|].
      intros [H|(p & Hp & Hb)]; [discriminate|]. injection Hp as <-. lia.
  - split; [intros _; left; reflexivity|reflexivity].
Qed.

(** X15: a progress update reporting more bytes than recorded adds the
    difference to the queue's processed bytes and records the new value
    for that job; the queue size and the job lists are unchanged. *)
Theorem progress_update_adds_delta now jid b prev m :
  active_job_progress m !! jid = Some prev -> prev < b ->
  let m' := fst (on_worker_progress_updated now jid b m) in
  total_bytes_processed_in_queue m' = total_bytes_processed_in_queue m + (b - prev)
  /\ active_job_progress m' = <[jid := b]> (active_job_progress m)
  /\ total_queue_size m' = total_queue_size m
  /\ job_queue m' = job_queue m /\ active_workers m' = active_workers m
  /\ completed_jobs m' = completed_jobs m.
Proof.
  intros Hp Hlt m'. unfold m', on_worker_progress_updated. rewrite Hp.
  destruct (Z.leb_spec (b - prev) 0); [lia|].
  simpl. repeat split.
Qed.

Lemma progress_update_adds_delta_witness :
  let m' := fst (on_worker_progress_updated 1%Q "Job_1" 500 mgr_progress) in
  total_bytes_processed_in_queue m' = total_bytes_processed_in_queue mgr_progress + (500 - 0)
  /\ active_job_progress m' = <["Job_1" := 500]> (active_job_progress mgr_progress)
  /\ total_queue_size m' = total_queue_size mgr_progress
  /\ job_queue m' = job_queue mgr_progress /\ active_workers m' = active_workers mgr_progress
  /\ completed_jobs m' = completed_jobs mgr_progress.
Proof.
  apply (progress_update_adds_delta 1%Q "Job_1" 500 0 mgr_progress).
  - reflexivity.
  - lia.
Defined.

(** X16: pausing a running queue at t1 and resuming it at t2 restores
    the unpaused running state and moves queue_start_time and
    last_progress_update_time forward by t2 - t1, so the paused interval
    is not counted; the job lists and the byte count are unchanged. *)
Theorem pause_then_resume_shifts_clock t1 t2 m :
  is_running m = true -> is_paused m = false ->
  let m1 := start_or_pause_queue t1 m in
  let m2 := start_or_pause_queue t2 m1 in
  is_paused m1 = true /\ pause_time m1 = t1
  /\ is_running m2 = true /\ is_paused m2 = false
  /\ queue_start_time m2 = (queue_start_time m + (t2 - t1))%Q
  /\ last_progress_update_time m2 = (last_progress_update_time m + (t2 - t1))%Q
  /\ job_queue m2 = job_queue m /\ active_workers m2 = active_workers m
  /\ completed_jobs m2 = completed_jobs m
  /\ total_bytes_processed_in_queue m2 = total_bytes_processed_in_queue m.
Proof.
  intros Hr Hp m1 m2. unfold m2, m1, start_or_pause_queue. rewrite Hr, Hp. simpl. rewrite ?Hr. simpl.
  repeat split.
Qed.

Lemma pause_then_resume_shifts_clock_witness :
  let m1 := start_or_pause_queue 3%Q mgr_progress in
  let m2 := start_or_pause_queue 5%Q m1 in
  is_paused m1 = true /\ pause_time m1 = 3%Q
  /\ is_running m2 = true /\ is_paused m2 = false
  /\ queue_start_time m2 = (queue_start_time mgr_progress + (5 - 3))%Q
  /\ last_progress_update_time m2 = (last_progress_update_time mgr_progress + (5 - 3))%Q
  /\ job_queue m2 = job_queue mgr_progress /\ active_workers m2 = active_workers mgr_progress
  /\ completed_jobs m2 = completed_jobs mgr_progress
  /\ total_bytes_processed_in_queue m2 = total_bytes_processed_in_queue mgr_progress.
Proof. apply (pause_then_resume_shifts_clock 3%Q 5%Q mgr_progress); reflexivity. Defined.

End Queue.

(* ------------------------------------------------------------------ *)
(** ** Manifest cancellation and parsing *)

Module MHLCancel.
Import MHL.

(** X17: a manifest verification cancelled at entry boundary k, before
    the last entry, when none of the first k entries raises, ends
    'Cancelled' (never 'Completed with issues') and its report holds
    exactly the file reports and counts of the first k entries. *)
Theorem mhl_cancel_reports_prefix digest tree td es k frs :
  (k < length es)%nat ->
  map (entry_report digest tree td) (firstn k es) = map Some frs ->
  let r := mhl_run digest tree td (Some es) (Some k) in
  mr_status r = MCancelled
  /\ mr_files r = frs
  /\ verified_count r = count_status Verified (map fr_status frs)
  /\ failed_count r = count_status FAILED (map fr_status frs)
  /\ missing_count r = count_status Missing (map fr_status frs)
  /\ mr_errors r = [].
Proof.
  intros Hk Hm r. unfold r, mhl_run. pose proof Hk as Hk0.
  rewrite <- (firstn_skipn k es). rewrite <- (firstn_skipn k es) in Hk.
  destruct (skipn k es) as [|e post] eqn:Hs.
  { rewrite app_nil_r in Hk. pose proof (firstn_le_length k es). lia. }
  destruct (verify_loop_prefix digest tree td (Some k) 0 (firstn k es) (e :: post)
              empty_mreport frs Hm) as (r' & Hl & A & B & C & D & _ & F).
  { intros j Hj. apply no_cancel_below. pose proof (firstn_le_length k es). lia. }
  rewrite Hl. simpl. simpl in A, B, C, D, F.
  rewrite length_firstn. replace (Nat.min k (length es)) with k by lia.
  rewrite Nat.leb_refl. simpl. repeat split; assumption.
Qed.

Lemma mhl_cancel_reports_prefix_witness :
  let r := mhl_run digest_bytes fs_mhl "/t" (Some entries_mhl) (Some 1%nat) in
  let frs := [mkFileReport "/t/a.mov" "00" "xxhash64" Missing None] in
  mr_status r = MCancelled
  /\ mr_files r = frs
  /\ verified_count r = count_status Verified (map fr_status frs)
  /\ failed_count r = count_status FAILED (map fr_status frs)
  /\ missing_count r = count_status Missing (map fr_status frs)
  /\ mr_errors r = [].
Proof.
  apply (mhl_cancel_reports_prefix digest_bytes fs_mhl "/t" entries_mhl 1
           [mkFileReport "/t/a.mov" "00" "xxhash64" Missing None]);
    [simpl; lia | vm_compute; reflexivity].
Defined.

End MHLCancel.

Module MHLParse.

(** An ElementTree element: tag (a namespaced tag is written
    ["{uri}local"]), text, and children. *)
#[warnings="-register-all"]
Inductive xml := XElem (tag : string) (text : option string) (kids : list xml).

Definition x_tag (e : xml) : string := match e with XElem t _ _ => t end.
Definition x_text (e : xml) : option string := match e with XElem _ x _ => x end.
Definition x_kids (e : xml) : list xml := match e with XElem _ _ k => k end.

(** [elem.findall('.//t')]: the strict descendants tagged [t], in
    document order. *)
Fixpoint iter_below (t : string) (e : xml) : list xml :=
  match e with
  | XElem _ _ ks =>
    (fix go (ks : list xml) : list xml :=
       match ks with
       | [] => []
       | k :: r => (if String.eqb (x_tag k) t then [k] else []) ++ iter_below t k ++ go r
       end) ks
  end.

(** [elem.find(t)]: the first child tagged [t]. *)
Definition find_child (t : string) (e : xml) : option xml :=
  List.find (fun k => String.eqb (x_tag k) t) (x_kids e).

(** Truth value of [find(...)]'s result: [None] is false, and an Element
    is true exactly when it has children ([len(elem) != 0], the rule of
    CPython's ElementTree, deprecated with a warning since 3.12). *)
Definition el_truthy (o : option xml) : bool :=
  match o with
  | Some k => match x_kids k with [] => false | _ :: _ => true end
  | None => false
  end.

(** Python's [a or b] on two [find] results. *)
Definition py_or (a b : option xml) : option xml := if el_truthy a then a else b.

Definition MHL_NS : string := "http://www.movielabs.com/ACF/MHL/v1.0".

(** ['mhl:local'] expanded with the [ns] map of _parse_mhl. *)
Definition qn (local : string) : string := "{" ++ MHL_NS ++ "}" ++ local.

(** An entry tuple (relative_path, expected_hash, hash_type, size), with
    [file_path_elem.text] kept as found. *)
Definition raw_entry : Type := option string * string * string * Z.

Section Parse.
(** [int(text)]; [None] when it raises. *)
Variable py_int : string -> option Z.

(** The body of the [for hash_elem in hash_elements] loop: [None] when it
    raises, [Some None] when it appends nothing. *)
Definition parse_hash_elem (h : xml) : option (option raw_entry) :=
  let file_path_elem := py_or (find_child (qn "file") h) (find_child "file" h) in
  let size_elem := py_or (find_child (qn "size") h) (find_child "size" h) in
  let xxhash64_elem := py_or (find_child (qn "xxhash64") h) (find_child "xxhash64" h) in
  let md5_elem := py_or (find_child (qn "md5") h) (find_child "md5" h) in
  let hv : option string * string :=
    match xxhash64_elem with
    | Some x => (x_text x, "xxhash64")
    | None => match md5_elem with
              | Some x => (x_text x, "md5")
              | None => (None, EmptyString)
              end
    end in
  match file_path_elem, fst hv with
  | Some fe, Some v =>
    if String.eqb v EmptyString then Some None else
    match size_elem with
    | None => None
    | Some se =>
      match x_text se with
      | None => None
      | Some st =>
        match py_int st with
        | None => None
        | Some n => Some (Some (x_text fe, v, snd hv, n))
        end
      end
    end
  | _, _ => Some None
  end.

Fixpoint parse_loop (hs : list xml) : option (list raw_entry) :=
  match hs with
  | [] => Some []
  | h :: r =>
    match parse_hash_elem h with
    | None => None
    | Some o =>
      match parse_loop r with
      | None => None
      | Some l => Some (match o with Some x => x :: l | None => l end)
      end
    end
  end.

(** MHLVerifyWorker._parse_mhl on the parsed document root; [None] when
    it raises. *)
Definition parse_mhl (root : xml) : option (list raw_entry) :=
  let hash_elements :=
    match iter_below (qn "hash") root with
    | [] => iter_below "hash" root
    | hs => hs
    end in
  parse_loop hash_elements.

End Parse.

(** A <hash> element with leaf <file>, <size> and <xxhash64> children,
    written with the tag function [q]. *)
Definition hash_elem (q : string -> string) (f : string * string * string) : xml :=
  let '(file, size, xx) := f in
  XElem (q "hash") None
    [XElem (q "file") (Some file) []; XElem (q "size") (Some size) [];
     XElem (q "xxhash64") (Some xx) []].

Definition manifest (q : string -> string) (fs : list (string * string * string)) : xml :=
  XElem (q "hashlist") None (map (hash_elem q) fs).

(** Tags without a namespace. *)
Definition plain (local : string) : string := local.

Lemma iter_below_manifest q t fs :
  (forall f, iter_below t (hash_elem q f) = []) ->
  iter_below t (manifest q fs)
  = List.filter (fun k => String.eqb (x_tag k) t) (map (hash_elem q) fs).
Proof.
  intros Hh. unfold manifest. simpl.
  induction fs as [|f r IH]; [reflexivity|].
  simpl. rewrite Hh, IH. simpl.
  destruct (String.eqb (x_tag (hash_elem q f)) t); reflexivity.
Qed.

Lemma parse_loop_map py_int (g : string * string * string -> option raw_entry) fs :
  (forall f, In f fs -> parse_hash_elem py_int (hash_elem plain f) = Some (g f)) ->
  parse_loop py_int (map (hash_elem plain) fs)
  = Some (List.fold_right (fun f l => match g f with Some x => x :: l | None => l end) [] fs).
Proof.
  induction fs as [|f r IH]; intros H; [reflexivity|].
  simpl. rewrite H by (left; reflexivity). rewrite IH by (intros f' Hf'; apply H; right; exact Hf').
  reflexivity.
Qed.

(** X18: a manifest written in the MHL namespace, whose hash elements
    hold leaf file, size and xxhash64 elements, parses to no entry at all:
    the leaf file element is falsy, so [or] falls back to an
    unnamespaced lookup that finds nothing.  The job then verifies
    nothing. *)
Theorem namespaced_manifest_parses_empty py_int fs :
  parse_mhl py_int (manifest qn fs) = Some [].
Proof.
  unfold parse_mhl.
  rewrite iter_below_manifest
    by (intros [[a b] c]; reflexivity).
  assert (Hf : List.filter (fun k => String.eqb (x_tag k) (qn "hash")) (map (hash_elem qn) fs)
               = map (hash_elem qn) fs).
  { induction fs as [|[[a b] c] r IH]; [reflexivity|]. simpl. rewrite IH. reflexivity. }
  rewrite Hf.
  assert (Hl : forall l, parse_loop py_int (map (hash_elem qn) l) = Some []).
  { induction l as [|[[a b] c] r IH]; [reflexivity|]. simpl. rewrite IH. reflexivity. }
  destruct fs as [|f0 r0]; [reflexivity|]. apply (Hl (f0 :: r0)).
Qed.

(** [int(text)] on strings of decimal digits. *)
Fixpoint digits_value (s : string) (acc : Z) : option Z :=
  match s with
  | EmptyString => Some acc
  | String c r =>
    let n := Z.of_nat (nat_of_ascii c) - 48 in
    if (0 <=? n) && (n <=? 9) then digits_value r (10 * acc + n) else None
  end.

Definition int_of_digits (s : string) : option Z :=
  match s with EmptyString => None | _ => digits_value s 0 end.

(** X19: a manifest without a namespace whose hash elements hold leaf
    file, size and xxhash64 elements, with non-empty hashes and sizes that
    int() accepts, parses to one entry per hash element, in document
    order, with hash type 'xxhash64'. *)
Theorem plain_manifest_parses_all py_int fs :
  (forall f s x, In (f, s, x) fs -> x <> EmptyString /\ py_int s <> None) ->
  parse_mhl py_int (manifest plain fs)
  = Some (map (fun '(f, s, x) =>
                 (Some f, x, "xxhash64", match py_int s with Some n => n | None => 0 end)) fs).
Proof.
  intros H. unfold parse_mhl.
  rewrite iter_below_manifest by (intros [[a b] c]; reflexivity).
  assert (Hf : List.filter (fun k => String.eqb (x_tag k) (qn "hash"))
                 (map (hash_elem plain) fs) = []).
  { clear H. induction fs as [|[[a b] c] r IH]; [reflexivity|]. simpl. exact IH. }
  rewrite Hf.
  rewrite iter_below_manifest by (intros [[a b] c]; reflexivity).
  assert (Hall : List.filter (fun k => String.eqb (x_tag k) "hash") (map (hash_elem plain) fs)
                 = map (hash_elem plain) fs).
  { clear H Hf. induction fs as [|[[a b] c] r IH]; [reflexivity|]. simpl. rewrite IH. reflexivity. }
  rewrite Hall.
  rewrite (parse_loop_map py_int (fun '(f, s, x) =>
             Some (Some f, x, "xxhash64", match py_int s with Some n => n | None => 0 end))).
  - f_equal. clear H Hf Hall. induction fs as [|[[a b] c] r IH]; [reflexivity|].
    simpl. f_equal. exact IH.
  - intros [[f s] x] Hin. destruct (H f s x Hin) as [Hx Hs].
    unfold parse_hash_elem. simpl.
    apply String.eqb_neq in Hx. rewrite Hx.
    destruct (py_int s) as [n|]; [reflexivity|congruence].
Qed.

Lemma plain_manifest_parses_all_witness :
  parse_mhl int_of_digits (manifest plain [("a.mov", "3", "ab"); ("b.mov", "2", "cd")])
  = Some (map (fun '(f, s, x) =>
                 (Some f, x, "xxhash64", match int_of_digits s with Some n => n | None => 0 end))
              [("a.mov", "3", "ab"); ("b.mov", "2", "cd")]).
Proof.
  apply plain_manifest_parses_all.
  intros f s x [E|[E|[]]]; injection E as <- <- <-; split; discriminate.
Defined.

End MHLParse.
